(** * TRACLUS preprocessing: great-circle distance, feature derivation,
      anomaly filtering and trajectory building

    A shallow embedding of [src/traclus/processing.py].

    Conventions of the embedding.
    - A float64 that is not NaN is a real number; NaN, [None] and NaT are
      [None].  Rounding and overflow are outside the model: finite values
      are computed in real arithmetic, and a statement about them says
      nothing of what rounding does to a value on the edge of the domain of
      [math.sqrt] or [math.asin].  The infinities are modelled for the
      distance function, in [Float64]; the frames hold numbers and NaN.
    - A timestamp is an integer number of nanoseconds; the overflow of the
      difference of two timestamps more than [2^63] nanoseconds apart is
      outside the model.
    - A [pandas.DataFrame] is the list of its rows in positional order; every
      row carries its index label.  Labels are unique, as they are for the
      [RangeIndex] of [read_csv] and for everything obtained from it by
      boolean-mask selection and [sort_values].
    - A Python call that can raise returns a [result]. *)

From Stdlib Require Import List ZArith Bool Lia Permutation Sorted.
From Stdlib Require Import Reals Lra.
Import ListNotations.

Set Implicit Arguments.

(** ** Python outcomes *)

Inductive exn : Type :=
| ValueError      (* math domain error *)
| AttributeError.

Inductive result (A : Type) : Type :=
| Return (a : A)
| Raise (e : exn).

Arguments Return {A} a.
Arguments Raise {A} e.

Definition bind {A B : Type} (m : result A) (k : A -> result B) : result B :=
  match m with
  | Return a => k a
  | Raise e => Raise e
  end.

Notation "x <- m ;; k" := (bind m (fun x => k))
  (at level 61, m at next level, right associativity).

(** [mapM f l]: apply [f] to the elements from left to right, stop at the
    first exception. *)
Fixpoint mapM {A B : Type} (f : A -> result B) (l : list A) : result (list B) :=
  match l with
  | [] => Return []
  | x :: xs => y <- f x ;; ys <- mapM f xs ;; Return (y :: ys)
  end.

(** ** Floats with NaN *)

Definition float := option R.

Definition isna {A : Type} (x : option A) : bool :=
  match x with None => true | Some _ => false end.

Definition notna {A : Type} (x : option A) : bool := negb (isna x).

(** ** The [math] module *)

Module math.
Local Open Scope R_scope.

(** [math.radians]: [x * (pi / 180)]. *)
Definition radians (x : R) : R := x * (PI / 180).

(** [math.sqrt] raises [ValueError] on a negative argument. *)
Definition sqrt (x : R) : result R :=
  if Rlt_dec x 0 then Raise ValueError else Return (R_sqrt.sqrt x).

(** [math.asin] raises [ValueError] outside [-1, 1]. *)
Definition asin (x : R) : result R :=
  if Rle_dec (-1) x
  then if Rle_dec x 1 then Return (Ratan.asin x) else Raise ValueError
  else Raise ValueError.
End math.

(** ** Distance function *)

Section Haversine.
Local Open Scope R_scope.

Definition EARTH_RADIUS_KM : R := 6371.

(** The quantity [a] of the source, on radians. *)
Definition hav_a (lon1 lat1 lon2 lat2 : R) : R :=
  let dlon := lon2 - lon1 in
  let dlat := lat2 - lat1 in
  sin (dlat / 2) ^ 2 + cos lat1 * cos lat2 * sin (dlon / 2) ^ 2.

Definition haversine (lon1 lat1 lon2 lat2 : float) : result float :=
  match lon1, lat1, lon2, lat2 with
  | Some lon1, Some lat1, Some lon2, Some lat2 =>
      let lon1 := math.radians lon1 in
      let lat1 := math.radians lat1 in
      let lon2 := math.radians lon2 in
      let lat2 := math.radians lat2 in
      let a := hav_a lon1 lat1 lon2 lat2 in
      s <- math.sqrt a ;;
      t <- math.asin s ;;
      let c := 2 * t in
      Return (Some (c * EARTH_RADIUS_KM * 1000))
  | _, _, _, _ => Return None
  end.

(** The distance as section 4.1 of the specification words it: degrees to
    radians, [a], [c = 2 asin (sqrt a)], [c * 6371000]; NaN as soon as one
    input is NaN. *)
Definition spec_distance (lon1 lat1 lon2 lat2 : float) : float :=
  match lon1, lat1, lon2, lat2 with
  | Some lon1, Some lat1, Some lon2, Some lat2 =>
      let rad x := x * PI / 180 in
      let dlat := rad lat2 - rad lat1 in
      let dlon := rad lon2 - rad lon1 in
      let a := Rsqr (sin (dlat / 2))
               + cos (rad lat1) * cos (rad lat2) * Rsqr (sin (dlon / 2)) in
      let c := 2 * Ratan.asin (R_sqrt.sqrt a) in
      Some (c * 6371000)
  | _, _, _, _ => None
  end.

(** The value returned on four numbers. *)
Definition hav_m (lon1 lat1 lon2 lat2 : R) : R :=
  2 * Ratan.asin (R_sqrt.sqrt
        (hav_a (math.radians lon1) (math.radians lat1)
               (math.radians lon2) (math.radians lat2)))
  * EARTH_RADIUS_KM * 1000.
End Haversine.

(** ** The distance function on floats with infinities

    [pd.isna] is false on an infinity, [math.sin], [math.cos] and
    [math.asin] raise [ValueError] on one, and the arithmetic operators
    follow IEEE 754.  [Float64.haversine] is the source on such values;
    finite values are real numbers, as above. *)

Module Float64.
Local Open Scope R_scope.

Inductive t : Type :=
| Fin (x : R)
| Inf (negative : bool)
| NaN.

(** A [float] of the frames as a float with infinities. *)
Definition of_float (x : float) : t :=
  match x with Some a => Fin a | None => NaN end.

(** [pd.isna] *)
Definition isna (x : t) : bool :=
  match x with NaN => true | _ => false end.

Definition is_negative (x : R) : bool :=
  if Rlt_dec x 0 then true else false.

(** [x * y]: an infinity times zero is NaN. *)
Definition mul (x y : t) : t :=
  match x, y with
  | NaN, _ | _, NaN => NaN
  | Fin a, Fin b => Fin (a * b)
  | Inf s, Fin b | Fin b, Inf s =>
      if Req_dec_T b 0 then NaN else Inf (xorb s (is_negative b))
  | Inf s, Inf s' => Inf (xorb s s')
  end.

(** [x + y]: the sum of the two infinities of opposite sign is NaN. *)
Definition add (x y : t) : t :=
  match x, y with
  | NaN, _ | _, NaN => NaN
  | Fin a, Fin b => Fin (a + b)
  | Inf s, Fin _ | Fin _, Inf s => Inf s
  | Inf s, Inf s' => if Bool.eqb s s' then Inf s else NaN
  end.

(** [x - y]: the difference of two infinities of the same sign is NaN. *)
Definition sub (x y : t) : t :=
  match x, y with
  | NaN, _ | _, NaN => NaN
  | Fin a, Fin b => Fin (a - b)
  | Inf s, Fin _ => Inf s
  | Fin _, Inf s => Inf (negb s)
  | Inf s, Inf s' => if Bool.eqb s s' then NaN else Inf s
  end.

(** [x / 2] *)
Definition half (x : t) : t :=
  match x with
  | Fin a => Fin (a / 2)
  | Inf s => Inf s
  | NaN => NaN
  end.

(** [x ** 2] *)
Definition pow2 (x : t) : t :=
  match x with
  | Fin a => Fin (a ^ 2)
  | Inf _ => Inf false
  | NaN => NaN
  end.

(** [math.radians]: [x * (pi / 180)]. *)
Definition radians (x : t) : t := mul x (Fin (PI / 180)).

(** [math.sin] and [math.cos] raise [ValueError] on an infinity and
    return NaN on NaN. *)
Definition sin (x : t) : result t :=
  match x with
  | Fin a => Return (Fin (Rtrigo_def.sin a))
  | Inf _ => Raise ValueError
  | NaN => Return NaN
  end.

Definition cos (x : t) : result t :=
  match x with
  | Fin a => Return (Fin (Rtrigo_def.cos a))
  | Inf _ => Raise ValueError
  | NaN => Return NaN
  end.

(** [math.sqrt]: [ValueError] on a negative number and on minus infinity. *)
Definition sqrt (x : t) : result t :=
  match x with
  | Fin a => r <- math.sqrt a ;; Return (Fin r)
  | Inf false => Return (Inf false)
  | Inf true => Raise ValueError
  | NaN => Return NaN
  end.

(** [math.asin]: [ValueError] outside [-1, 1]. *)
Definition asin (x : t) : result t :=
  match x with
  | Fin a => r <- math.asin a ;; Return (Fin r)
  | Inf _ => Raise ValueError
  | NaN => Return NaN
  end.

(** The source, line by line; the operands of the expression for [a] are
    evaluated from left to right. *)
Definition haversine (lon1 lat1 lon2 lat2 : t) : result t :=
  if isna lon1 || isna lat1 || isna lon2 || isna lat2 then Return NaN
  else
    let lon1 := radians lon1 in
    let lat1 := radians lat1 in
    let lon2 := radians lon2 in
    let lat2 := radians lat2 in
    let dlon := sub lon2 lon1 in
    let dlat := sub lat2 lat1 in
    s1 <- sin (half dlat) ;;
    c1 <- cos lat1 ;;
    c2 <- cos lat2 ;;
    s2 <- sin (half dlon) ;;
    let a := add (pow2 s1) (mul (mul c1 c2) (pow2 s2)) in
    r <- sqrt a ;;
    t <- asin r ;;
    let c := mul (Fin 2) t in
    Return (mul (mul c (Fin EARTH_RADIUS_KM)) (Fin 1000)).
End Float64.

(** ** Stable sorting

    [DataFrame.sort_values] on several columns goes through [lexsort], a
    stable sort; the result of a stable sort is determined by the order of the
    keys, so insertion from the right stands for it. *)

Section StableSort.
Variable A : Type.
Variable leb : A -> A -> bool.

Fixpoint insert (x : A) (l : list A) : list A :=
  match l with
  | [] => [x]
  | y :: l' => if leb x y then x :: l else y :: insert x l'
  end.

Fixpoint sort (l : list A) : list A :=
  match l with
  | [] => []
  | x :: xs => insert x (sort xs)
  end.
End StableSort.

(** ** Series and frames *)

(** [Series.unique]: the distinct values in order of first appearance. *)
Fixpoint unique (l : list Z) : list Z :=
  match l with
  | [] => []
  | x :: xs => x :: filter (fun y => negb (y =? x)%Z) (unique xs)
  end.

Fixpoint list_eqb (l1 l2 : list Z) : bool :=
  match l1, l2 with
  | [], [] => true
  | x :: xs, y :: ys => (x =? y)%Z && list_eqb xs ys
  | _, _ => false
  end.

(** [a > c] on a float column: false on NaN. *)
Definition float_gt (a : float) (c : R) : bool :=
  match a with
  | Some x => if Rgt_dec x c then true else false
  | None => false
  end.

Definition float_div (a b : float) : float :=
  match a, b with
  | Some x, Some y => Some (x / y)%R
  | _, _ => None
  end.

Definition float_mul (a : float) (c : R) : float :=
  match a with
  | Some x => Some (x * c)%R
  | None => None
  end.

(** A raw point: index label, vehicle, timestamp in nanoseconds (NaT is
    [None]) and coordinates in degrees. *)
Record point : Type := mkPoint {
  idx : Z;
  TaxiID : Z;
  DateTime : option Z;
  Latitude : float;
  Longitude : float
}.

(** A point with the three derived columns. *)
Record drow : Type := mkDrow {
  pt :> point;
  TimeDiff_s : float;
  DistJump_m : float;
  Speed_kmh : float
}.

(** Ascending order of a datetime column, NaT last ([na_position='last']). *)
Definition DateTime_leb (a b : option Z) : bool :=
  match a, b with
  | Some x, Some y => (x <=? y)%Z
  | _, None => true
  | None, Some _ => false
  end.

(** Order of the key [['TaxiID', 'DateTime']]. *)
Definition key_leb (r s : point) : bool :=
  (TaxiID r <? TaxiID s)%Z
  || ((TaxiID r =? TaxiID s)%Z && DateTime_leb (DateTime r) (DateTime s)).

(** ** Grouping *)

Section GroupBy.
Variable Row : Type.
Variable key : Row -> Z.
Variable label : Row -> Z.

(** The group keys, ascending ([sort=True]). *)
Definition group_keys (df : list Row) : list Z :=
  sort Z.leb (unique (map key df)).

Definition get_group (k : Z) (df : list Row) : list Row :=
  filter (fun r => (key r =? k)%Z) df.

Definition groups (df : list Row) : list (list Row) :=
  map (fun k => get_group k df) (group_keys df).

(** [GroupBy.filter]: the rows of the groups that pass, in the order of the
    frame. *)
Definition groupby_filter (f : list Row -> bool) (df : list Row) : list Row :=
  filter (fun r => f (get_group (key r) df)) df.

(** [GroupBy.shift(1)]: for every row the previous row of its group.
    [before] is the part of the frame already passed, nearest row first. *)
Fixpoint shift_rows (before df : list Row) : list (option Row) :=
  match df with
  | [] => []
  | r :: rs =>
      find (fun p => (key p =? key r)%Z) before :: shift_rows (r :: before) rs
  end.

Definition groupby_shift (df : list Row) : list (option Row) :=
  shift_rows [] df.

(** [_is_indexed_like]: the result carries the labels of the group in the
    same order. *)
Definition is_indexed_like (res g : list Row) : bool :=
  list_eqb (map label res) (map label g).

Fixpoint forallb2 {X Y : Type} (p : X -> Y -> bool)
         (l1 : list X) (l2 : list Y) : bool :=
  match l1, l2 with
  | [], [] => true
  | x :: xs, y :: ys => p x y && forallb2 p xs ys
  | _, _ => false
  end.

(** [GroupBy.apply(f)] with [group_keys=False] and [f] returning a frame.
    [f] is applied to the groups in key order.  When every result is indexed
    like its group the call counts as a transform: the concatenation is
    reindexed to the axis of the frame, which with unique labels gives the
    rows back in the order of the frame.  Otherwise the results are
    concatenated in key order. *)
Definition groupby_apply (f : list Row -> list Row) (df : list Row) : list Row :=
  let values := map f (groups df) in
  let mutated := negb (forallb2 is_indexed_like values (groups df)) in
  if mutated then concat values else df.
End GroupBy.

(** ** Feature deriver *)

Section Features.
Local Open Scope R_scope.

Definition sort_values_TaxiID_DateTime (df : list point) : list point :=
  sort key_leb df.

(** [diff().dt.total_seconds()] of a row against the previous row of its
    group: NaN when there is none or one of the two timestamps is NaT.  The
    two timestamps are taken less than [2^63] nanoseconds apart, where the
    difference of the source does not overflow. *)
Definition diff_total_seconds (prev : option point) (r : point) : float :=
  match prev with
  | Some p =>
      match DateTime r, DateTime p with
      | Some t, Some t0 => Some (IZR (t - t0) / 1000000000)
      | _, _ => None
      end
  | None => None
  end.

Definition shifted (col : point -> float) (prev : option point) : float :=
  match prev with
  | Some p => col p
  | None => None
  end.

(** The column expressions of [calculate_trajectory_features] at one row. *)
Definition derive (rp : point * option point) : result drow :=
  let '(r, prev) := rp in
  let TimeDiff_s := diff_total_seconds prev r in
  let PrevLat := shifted Latitude prev in
  let PrevLon := shifted Longitude prev in
  let valid_prev := notna PrevLat in
  DistJump_m <- (if valid_prev
                 then haversine PrevLon PrevLat (Longitude r) (Latitude r)
                 else Return None) ;;
  let valid_speed :=
    valid_prev && float_gt TimeDiff_s (1 / 1000000) && notna DistJump_m in
  let Speed_kmh :=
    if valid_speed
    then float_mul (float_div DistJump_m TimeDiff_s) (36 / 10)
    else None in
  Return (mkDrow r TimeDiff_s DistJump_m Speed_kmh).

Definition calculate_trajectory_features (_df : list point) : result (list drow) :=
  let df := sort_values_TaxiID_DateTime _df in
  mapM derive (combine df (groupby_shift TaxiID df)).
End Features.

(** ** Anomaly filter *)

Section Filter.
Local Open Scope R_scope.

Definition max_speed_kmh_default : R := 150.

(** [Series > scalar]: an element-wise comparison, nowhere null. *)
Definition series_gt (s : list float) (c : R) : list (option bool) :=
  map (fun x => Some (float_gt x c)) s.

Definition fillna (d : bool) (s : list (option bool)) : list bool :=
  map (fun x => match x with Some b => b | None => d end) s.

(** [df[mask]]. *)
Fixpoint boolean_mask {X : Type} (df : list X) (mask : list bool) : list X :=
  match df, mask with
  | r :: rs, b :: bs => if b then r :: boolean_mask rs bs else boolean_mask rs bs
  | _, _ => []
  end.

Definition invalid_mask (df : list drow) (max_speed_kmh : R) : list bool :=
  fillna false (series_gt (map Speed_kmh df) max_speed_kmh).

(** The frame always has the column [Speed_kmh] here, so the guard of the
    source on a frame without it does not apply.  The second component is
    what the function reports through [st.write]. *)
Definition filter_invalid_moves_report (df : list drow) (max_speed_kmh : R)
  : list drow * option nat :=
  let invalid := invalid_mask df max_speed_kmh in
  let valid_df := boolean_mask df (map negb invalid) in
  let num_removed := (length df - length valid_df)%nat in
  (valid_df, if (0 <? num_removed)%nat then Some num_removed else None).

Definition filter_invalid_moves (df : list drow) (max_speed_kmh : R) : list drow :=
  fst (filter_invalid_moves_report df max_speed_kmh).
End Filter.

(** ** Trajectory builder *)

Section Builder.
Definition drow_TaxiID (r : drow) : Z := TaxiID r.
Definition drow_idx (r : drow) : Z := idx r.

Definition set_idx (i : Z) (r : drow) : drow :=
  mkDrow (mkPoint i (TaxiID r) (DateTime r) (Latitude r) (Longitude r))
         (TimeDiff_s r) (DistJump_m r) (Speed_kmh r).

(** [reset_index(drop=True)]. *)
Fixpoint reset_index_from (i : Z) (df : list drow) : list drow :=
  match df with
  | [] => []
  | r :: rs => set_idx i r :: reset_index_from (i + 1) rs
  end.

Definition reset_index (df : list drow) : list drow := reset_index_from 0 df.

(** [x.sort_values('DateTime')].  On one column pandas sorts with an
    unstable quicksort, so the order of rows with equal timestamps is not
    fixed by the source; here they keep their order.  The general facts
    about the builder use only that the result is a permutation of the
    group. *)
Definition sort_values_DateTime (x : list drow) : list drow :=
  sort (fun r s : drow => DateTime_leb (DateTime r) (DateTime s)) x.

(** [x.values] of the columns [['Latitude', 'Longitude']]. *)
Definition values_Latitude_Longitude (x : list drow) : list (float * float) :=
  map (fun r : drow => (Latitude r, Longitude r)) x.

(** [groupby('TaxiID')[[...]].apply(lambda x: x.values).tolist()].  With at
    least one group the result of [apply] is a Series of arrays in key
    order; with none it is an empty DataFrame, which has no [tolist]. *)
Definition extract_traj_data (processed_df : list drow)
  : result (list (list (float * float))) :=
  match groups drow_TaxiID processed_df with
  | [] => Raise AttributeError
  | gs => Return (map values_Latitude_Longitude gs)
  end.

Definition preprocess_data (_filtered_df : list drow)
  : result (list (list (float * float)) * list drow * list Z) :=
  let processed_df :=
    groupby_filter drow_TaxiID (fun x => (2 <=? length x)%nat) _filtered_df in
  let processed_df :=
    reset_index (groupby_apply drow_TaxiID drow_idx sort_values_DateTime processed_df) in
  traj_data <- extract_traj_data processed_df ;;
  let traj_ids := unique (map drow_TaxiID processed_df) in
  Return (traj_data, processed_df, traj_ids).
End Builder.

(** ** Date and hour filters *)

Section DateHourFilters.
Local Open Scope Z_scope.
Variable Row : Type.
Variable DateTime_col : Row -> option Z.

Definition ns_per_hour : Z := 3600000000000.
Definition ns_per_day : Z := 86400000000000.

(** [.dt.hour] of a timestamp in nanoseconds since the epoch: the hour of
    the day, 0 to 23; missing on NaT. *)
Definition dt_hour (t : option Z) : option Z :=
  match t with
  | Some t => Some ((t / ns_per_hour) mod 24)
  | None => None
  end.

(** [.dt.date], a date being the number of its day since the epoch. *)
Definition dt_date (t : option Z) : option Z :=
  match t with
  | Some t => Some (t / ns_per_day)
  | None => None
  end.

(** [pd.Timestamp(d).date()], [d] given by the instant it stands for. *)
Definition Timestamp_date (d : Z) : Z := d / ns_per_day.

(** [Series >= scalar] and [Series <= scalar]: false on a missing value. *)
Definition int_ge (a : option Z) (c : Z) : bool :=
  match a with
  | Some x => c <=? x
  | None => false
  end.

Definition int_le (a : option Z) (c : Z) : bool :=
  match a with
  | Some x => x <=? c
  | None => false
  end.

(** [Series.isin(values)]. *)
Definition isin (a : option Z) (values : list Z) : bool :=
  match a with
  | Some x => existsb (Z.eqb x) values
  | None => false
  end.

Definition filter_data_by_date (df : list Row) (selected_dates : list Z)
           (len_sad : Z) : list Row :=
  if Z.of_nat (length selected_dates) =? len_sad then df
  else
    let dates_to_filter := map Timestamp_date selected_dates in
    boolean_mask df
      (map (fun r => isin (dt_date (DateTime_col r)) dates_to_filter) df).

Definition filter_data_by_hours (df : list Row) (custom_hour_range : Z * Z)
  : list Row :=
  let dt r := dt_hour (DateTime_col r) in
  let '(start, end_) := custom_hour_range in
  if (start =? 0) && (end_ =? 23) then df
  else if end_ =? 23 then boolean_mask df (map (fun r => int_ge (dt r) start) df)
  else boolean_mask df
         (map (fun r => int_ge (dt r) start && int_le (dt r) end_) df).

(** The rows either filter lets through, as a predicate on one row. *)
Definition hours_mask (rg : Z * Z) (r : Row) : bool :=
  let '(s, e) := rg in
  if (s =? 0) && (e =? 23) then true
  else int_ge (dt_hour (DateTime_col r)) s && int_le (dt_hour (DateTime_col r)) e.

Definition dates_mask (dates : list Z) (n : Z) (r : Row) : bool :=
  if Z.of_nat (length dates) =? n then true
  else isin (dt_date (DateTime_col r)) (map Timestamp_date dates).
End DateHourFilters.

(** The default range of [filter_data_by_hours]. *)
Definition custom_hour_range_default : Z * Z := (0%Z, 23%Z).

(** * Vocabulary of the specification *)

Section Vocabulary.
Local Open Scope R_scope.

(** A point is anomalous at threshold [T] when its speed is a number
    strictly greater than [T]. *)
Definition anomalous (T : R) (r : drow) : Prop :=
  exists s : R, Speed_kmh r = Some s /\ s > T.

(** [removes P l l']: [l'] is [l] with exactly the elements satisfying [P]
    taken out, the others staying where they are. *)
Inductive removes {X : Type} (P : X -> Prop) : list X -> list X -> Prop :=
| removes_nil : removes P [] []
| removes_drop x l l' : P x -> removes P l l' -> removes P (x :: l) l'
| removes_keep x l l' : ~ P x -> removes P l l' -> removes P (x :: l) (x :: l').

(** Ascending timestamps, the missing ones last. *)
Definition time_le (a b : option Z) : Prop :=
  match a, b with
  | Some x, Some y => (x <= y)%Z
  | _, None => True
  | None, Some _ => False
  end.

(** Vehicle first, then time. *)
Definition vehicle_time_le (r s : point) : Prop :=
  (TaxiID r < TaxiID s)%Z
  \/ (TaxiID r = TaxiID s /\ time_le (DateTime r) (DateTime s)).

Definition DateTime_eqb (a b : option Z) : bool :=
  match a, b with
  | Some x, Some y => (x =? y)%Z
  | None, None => true
  | _, _ => false
  end.

(** The points of vehicle [v] with timestamp [t]. *)
Definition same_key (v : Z) (t : option Z) (r : point) : bool :=
  (TaxiID r =? v)%Z && DateTime_eqb (DateTime r) t.

(** The timestamp is there and its hour of the day lies between [s] and
    [e], both included. *)
Definition hour_between (s e : Z) (t : option Z) : Prop :=
  exists x : Z, t = Some x /\ (s <= (x / ns_per_hour) mod 24 <= e)%Z.

(** The timestamp is there and falls on the day of one of the instants
    [dates]. *)
Definition on_one_of (dates : list Z) (t : option Z) : Prop :=
  exists x d : Z, t = Some x /\ In d dates /\ (x / ns_per_day = d / ns_per_day)%Z.

(** The sort key of a point. *)
Definition vehicle_time (r : point) : Z * option Z := (TaxiID r, DateTime r).

(** The speed as section 4.2 of the specification words it:
    [(dist_jump_m / time_diff_s) * 3.6] when [time_diff_s > 1e-6] and
    [dist_jump_m] is not null, null otherwise. *)
Definition spec_speed (time_diff_s dist_jump_m : float) : float :=
  match time_diff_s, dist_jump_m with
  | Some t, Some d =>
      if Rgt_dec t (1 / 1000000) then Some (d / t * (36 / 10)) else None
  | _, _ => None
  end.

(** The row [derive] returns, the distance being taken from
    [spec_distance]. *)
Definition derive_value (rp : point * option point) : drow :=
  let '(r, prev) := rp in
  let TimeDiff_s := diff_total_seconds prev r in
  let PrevLat := shifted Latitude prev in
  let PrevLon := shifted Longitude prev in
  let DistJump_m :=
    if notna PrevLat
    then spec_distance PrevLon PrevLat (Longitude r) (Latitude r)
    else None in
  let Speed_kmh :=
    if notna PrevLat && float_gt TimeDiff_s (1 / 1000000) && notna DistJump_m
    then float_mul (float_div DistJump_m TimeDiff_s) (36 / 10)
    else None in
  mkDrow r TimeDiff_s DistJump_m Speed_kmh.

(** The derived rows of a frame [df] whose rows are preceded by [before]
    (nearest row first). *)
Definition features_from (before df : list point) : list drow :=
  map derive_value (combine df (shift_rows TaxiID before df)).

(** A point is the first of its vehicle in a frame when no row before it
    has its vehicle. *)
Definition first_of_vehicle (before : list drow) (r : drow) : Prop :=
  forall q : drow, In q before -> TaxiID q <> TaxiID r.

(** The frame is in vehicle order: [TaxiID] never decreases from a row to
    the next.  The feature deriver emits such frames and the anomaly filter
    keeps them so. *)
Definition ordered_by_vehicle (df : list drow) : Prop :=
  Sorted Z.le (map drow_TaxiID df).

(** A vehicle qualifies when at least two of its points are in the frame. *)
Definition qualifies (df : list drow) (v : Z) : bool :=
  (2 <=? length (get_group drow_TaxiID v df))%nat.

(** The qualifying vehicles in the order in which they first appear. *)
Definition first_appearance_order (df : list drow) : list Z :=
  filter (qualifies df) (unique (map drow_TaxiID df)).

(** The coordinate pairs of the rows of vehicle [v], in frame order. *)
Definition trajectory_of (df : list drow) (v : Z) : list (float * float) :=
  values_Latitude_Longitude (get_group drow_TaxiID v df).

(** The two intermediate frames of [preprocess_data]. *)
Definition keep_two (df : list drow) : list drow :=
  groupby_filter drow_TaxiID (fun x => (2 <=? length x)%nat) df.

Definition processed (df : list drow) : list drow :=
  reset_index
    (groupby_apply drow_TaxiID drow_idx sort_values_DateTime (keep_two df)).

(** Every trajectory has two points at least, the two lists are equally
    long, and the trajectory at a position is that of the vehicle at the same
    position of the ID list. *)
Definition parallel_lists
           (out : list (list (float * float)) * list drow * list Z) : Prop :=
  let '(traj_data, processed_df, traj_ids) := out in
  Forall (fun t => (2 <= length t)%nat) traj_data
  /\ length traj_data = length traj_ids
  /\ traj_data = map (trajectory_of processed_df) traj_ids.

(** The vehicles of both lists are the qualifying vehicles of the input in
    first-appearance order, each trajectory being made of the points the
    input has for its vehicle. *)
Definition first_appearance_lists (df : list drow)
           (out : list (list (float * float)) * list drow * list Z) : Prop :=
  let '(traj_data, processed_df, traj_ids) := out in
  traj_ids = first_appearance_order df
  /\ traj_data = map (trajectory_of processed_df) traj_ids
  /\ (forall v : Z, In v traj_ids ->
        Permutation (trajectory_of processed_df v) (trajectory_of df v)).
End Vocabulary.

(** * Example frames *)

Section Examples.
Local Open Scope Z_scope.

(** A row with NaN in the derived columns, latitude and longitude given as
    integers of degrees. *)
Definition row_at (i v t lat lon : Z) : drow :=
  mkDrow (mkPoint i v (Some t) (Some (IZR lat)) (Some (IZR lon))) None None None.

(** Vehicle 2 with three points, then vehicle 1 with two, each in time
    order: the layout of a file that lists one vehicle after the other. *)
Definition frame_2_then_1 : list drow :=
  [ row_at 0 2 0 20 120; row_at 1 2 10 21 121; row_at 2 2 20 22 122;
    row_at 3 1 0 10 110; row_at 4 1 10 11 111 ].

Definition traj_vehicle_1 : list (float * float) :=
  [ (Some (IZR 10), Some (IZR 110)); (Some (IZR 11), Some (IZR 111)) ].

Definition traj_vehicle_2 : list (float * float) :=
  [ (Some (IZR 20), Some (IZR 120)); (Some (IZR 21), Some (IZR 121));
    (Some (IZR 22), Some (IZR 122)) ].

(** Vehicle 7 before vehicle 3, each in time order, and a single point of
    vehicle 5. *)
Definition frame_7_5_3 : list drow :=
  [ row_at 0 7 0 1 2; row_at 1 7 5 3 4;
    row_at 2 5 0 9 9;
    row_at 3 3 0 5 6; row_at 4 3 5 7 8; row_at 5 3 9 9 10 ].

Definition traj_vehicle_7 : list (float * float) :=
  [ (Some (IZR 1), Some (IZR 2)); (Some (IZR 3), Some (IZR 4)) ].

Definition traj_vehicle_3 : list (float * float) :=
  [ (Some (IZR 5), Some (IZR 6)); (Some (IZR 7), Some (IZR 8));
    (Some (IZR 9), Some (IZR 10)) ].

Definition traj_vehicle_3_short : list (float * float) :=
  [ (Some (IZR 5), Some (IZR 6)); (Some (IZR 7), Some (IZR 8)) ].

(** Vehicle 7 before vehicle 3 again, the points of vehicle 7 out of time
    order. *)
Definition frame_7_unsorted_3 : list drow :=
  [ row_at 0 7 5 3 4; row_at 1 7 0 1 2;
    row_at 2 3 0 5 6; row_at 3 3 5 7 8 ].

(** A frame in vehicle order: vehicle 1 (two points), vehicle 2 (one
    point), vehicle 4 (two points, the second without coordinates). *)
Definition frame_in_vehicle_order : list drow :=
  [ row_at 0 1 0 0 0; row_at 1 1 10 0 1;
    row_at 2 2 0 5 5;
    row_at 3 4 0 8 8;
    mkDrow (mkPoint 4 4 (Some 10) None None) (Some 10%R) None None ].

(** Four points of one vehicle: at 08:00 and at 12:30 of the first day of
    the epoch, without timestamp, and at 23:15 of the day before. *)
Definition hour_frame : list point :=
  [ mkPoint 0 1 (Some 28800000000000) None None;
    mkPoint 1 1 (Some 45000000000000) None None;
    mkPoint 2 1 None None None;
    mkPoint 3 1 (Some (-2700000000000)) None None ].

(** The scenario of section 8 of the specification: vehicle 1 at
    (lat 0, lon 0) at 0 s, at (lat 0, lon 0.001) at 10 s and at
    (lat 0, lon 10) at 20 s, the rows given out of order. *)
Definition pA0 : point := mkPoint 0 1 (Some 0) (Some 0%R) (Some 0%R).
Definition pA1 : point :=
  mkPoint 1 1 (Some 10000000000) (Some 0%R) (Some (1 / 1000)%R).
Definition pA2 : point := mkPoint 2 1 (Some 20000000000) (Some 0%R) (Some 10%R).
Definition dfA : list point := [pA2; pA0; pA1].

Definition tA : R := (IZR 10000000000 / 1000000000)%R.
Definition dA0 : drow := mkDrow pA0 None None None.
Definition dA1 : drow :=
  mkDrow pA1 (Some tA) (Some (hav_m 0 0 (1 / 1000) 0))
         (Some (hav_m 0 0 (1 / 1000) 0 / tA * (36 / 10))%R).
Definition dA2 : drow :=
  mkDrow pA2 (Some tA) (Some (hav_m (1 / 1000) 0 10 0))
         (Some (hav_m (1 / 1000) 0 10 0 / tA * (36 / 10))%R).
End Examples.

(** * Properties *)

(** ** Facts about the distance function *)

Section HaversineFacts.
Local Open Scope R_scope.

Lemma sin_sq_range (x : R) : 0 <= sin x ^ 2 <= 1.
Proof.
  pose proof (sin2_cos2 x) as H. unfold Rsqr in H.
  split; nra.
Qed.

(** With [p], [q] the half difference and half sum of the latitudes,
    [a = sin² p (1 - s) + cos² q s]: a convex combination. *)
Lemma hav_a_convex (lon1 lat1 lon2 lat2 : R) :
  let p := (lat2 - lat1) / 2 in
  let q := (lat2 + lat1) / 2 in
  let s := sin ((lon2 - lon1) / 2) ^ 2 in
  hav_a lon1 lat1 lon2 lat2 = sin p ^ 2 * (1 - s) + cos q ^ 2 * s.
Proof.
  intros p q s. unfold hav_a. fold p. fold s.
  replace lat1 with (q - p) at 1 by (unfold p, q; field).
  replace lat2 with (q + p) at 1 by (unfold p, q; field).
  rewrite cos_minus, cos_plus.
  pose proof (sin2_cos2 p) as Hp. pose proof (sin2_cos2 q) as Hq.
  unfold Rsqr in Hp, Hq.
  assert (Hcp : cos p * cos p = 1 - sin p * sin p) by lra.
  assert (Hsq : sin q * sin q = 1 - cos q * cos q) by lra.
  transitivity
    (sin p ^ 2
     + ((cos q * cos q) * (cos p * cos p) - (sin q * sin q) * (sin p * sin p)) * s).
  - ring.
  - rewrite Hcp, Hsq. ring.
Qed.

Lemma hav_a_range (lon1 lat1 lon2 lat2 : R) :
  0 <= hav_a lon1 lat1 lon2 lat2 <= 1.
Proof.
  rewrite hav_a_convex.
  pose proof (sin_sq_range ((lat2 - lat1) / 2)) as Hp.
  pose proof (sin_sq_range ((lon2 - lon1) / 2)) as Hs.
  pose proof (sin2_cos2 ((lat2 + lat1) / 2)) as Hq. unfold Rsqr in Hq.
  assert (Hc : 0 <= cos ((lat2 + lat1) / 2) ^ 2 <= 1) by (split; nra).
  split; nra.
Qed.

Lemma sqrt_unit_range (a : R) : 0 <= a <= 1 -> 0 <= R_sqrt.sqrt a <= 1.
Proof.
  intros [H0 H1]. split.
  - apply sqrt_pos.
  - rewrite <- sqrt_1. apply sqrt_le_1; lra.
Qed.

Lemma math_sqrt_total (a : R) :
  0 <= a -> math.sqrt a = Return (R_sqrt.sqrt a).
Proof.
  intros H. unfold math.sqrt. destruct (Rlt_dec a 0); [lra | reflexivity].
Qed.

Lemma math_asin_total (x : R) :
  -1 <= x <= 1 -> math.asin x = Return (Ratan.asin x).
Proof.
  intros [H0 H1]. unfold math.asin.
  destruct (Rle_dec (-1) x); [| lra].
  destruct (Rle_dec x 1); [reflexivity | lra].
Qed.

Lemma asin_nonneg (x : R) : 0 <= x <= 1 -> 0 <= Ratan.asin x.
Proof.
  intros [H0 H1].
  destruct (Rle_lt_dec 0 (Ratan.asin x)) as [H | H]; [exact H | exfalso].
  pose proof (asin_bound x) as [Hlo _].
  pose proof PI_RGT_0 as Hpi.
  assert (Hs : sin (Ratan.asin x) < 0) by (apply sin_lt_0_var; lra).
  rewrite sin_asin in Hs; lra.
Qed.

Lemma haversine_some (lon1 lat1 lon2 lat2 : R) :
  haversine (Some lon1) (Some lat1) (Some lon2) (Some lat2)
  = Return (Some (hav_m lon1 lat1 lon2 lat2)).
Proof.
  unfold haversine, hav_m.
  set (a := hav_a _ _ _ _).
  pose proof (hav_a_range (math.radians lon1) (math.radians lat1)
                          (math.radians lon2) (math.radians lat2)) as Ha.
  fold a in Ha.
  rewrite math_sqrt_total by lra. cbn [bind].
  pose proof (sqrt_unit_range Ha) as Hs.
  rewrite math_asin_total by lra. reflexivity.
Qed.

Lemma haversine_na (lon1 lat1 lon2 lat2 : float) :
  isna lon1 || isna lat1 || isna lon2 || isna lat2 = true ->
  haversine lon1 lat1 lon2 lat2 = Return None.
Proof.
  destruct lon1, lat1, lon2, lat2; cbn; intros H; try reflexivity; discriminate.
Qed.

(** On numbers and NaN, in real arithmetic, the distance function
    returns. *)
Lemma haversine_total (lon1 lat1 lon2 lat2 : float) :
  exists d, haversine lon1 lat1 lon2 lat2 = Return d.
Proof.
  destruct lon1 as [x1|], lat1 as [y1|], lon2 as [x2|], lat2 as [y2|];
    try (eexists; reflexivity).
  eexists. apply haversine_some.
Qed.

Lemma hav_m_nonneg (lon1 lat1 lon2 lat2 : R) : 0 <= hav_m lon1 lat1 lon2 lat2.
Proof.
  unfold hav_m, EARTH_RADIUS_KM.
  pose proof (hav_a_range (math.radians lon1) (math.radians lat1)
                          (math.radians lon2) (math.radians lat2)) as Ha.
  pose proof (asin_nonneg (sqrt_unit_range Ha)) as Hc.
  nra.
Qed.

Lemma hav_a_sym (lon1 lat1 lon2 lat2 : R) :
  hav_a lon2 lat2 lon1 lat1 = hav_a lon1 lat1 lon2 lat2.
Proof.
  unfold hav_a.
  replace ((lat1 - lat2) / 2) with (- ((lat2 - lat1) / 2)) by field.
  replace ((lon1 - lon2) / 2) with (- ((lon2 - lon1) / 2)) by field.
  rewrite !sin_neg. ring.
Qed.

Lemma hav_a_self (lon lat : R) : hav_a lon lat lon lat = 0.
Proof.
  unfold hav_a.
  replace ((lat - lat) / 2) with 0 by field.
  replace ((lon - lon) / 2) with 0 by field.
  rewrite sin_0. ring.
Qed.

Lemma hav_m_spec (lon1 lat1 lon2 lat2 : R) :
  Some (hav_m lon1 lat1 lon2 lat2)
  = spec_distance (Some lon1) (Some lat1) (Some lon2) (Some lat2).
Proof.
  unfold hav_m, spec_distance, hav_a, math.radians, EARTH_RADIUS_KM, Rsqr.
  f_equal.
  replace (lat2 * PI / 180 - lat1 * PI / 180)
    with (lat2 * (PI / 180) - lat1 * (PI / 180)) by field.
  replace (lon2 * PI / 180 - lon1 * PI / 180)
    with (lon2 * (PI / 180) - lon1 * (PI / 180)) by field.
  replace (lat1 * PI / 180) with (lat1 * (PI / 180)) by field.
  replace (lat2 * PI / 180) with (lat2 * (PI / 180)) by field.
  set (u := sin ((lat2 * (PI / 180) - lat1 * (PI / 180)) / 2)).
  set (v := sin ((lon2 * (PI / 180) - lon1 * (PI / 180)) / 2)).
  replace (u ^ 2) with (u * u) by ring.
  replace (v ^ 2) with (v * v) by ring.
  ring.
Qed.

Lemma haversine_spec_distance (lon1 lat1 lon2 lat2 : float) :
  haversine lon1 lat1 lon2 lat2 = Return (spec_distance lon1 lat1 lon2 lat2).
Proof.
  destruct lon1 as [x1|], lat1 as [y1|], lon2 as [x2|], lat2 as [y2|];
    try reflexivity.
  rewrite haversine_some, hav_m_spec. reflexivity.
Qed.

(** *** With the infinities *)

Lemma radians_Inf (s : bool) :
  Float64.radians (Float64.Inf s) = Float64.Inf s.
Proof.
  unfold Float64.radians, Float64.mul, Float64.is_negative.
  pose proof PI_RGT_0 as Hpi.
  destruct (Req_dec_T (PI / 180) 0) as [E | _]; [lra |].
  destruct (Rlt_dec (PI / 180) 0) as [H | _]; [lra |].
  rewrite xorb_false_r. reflexivity.
Qed.

Lemma radians_Fin (x : R) :
  Float64.radians (Float64.Fin x) = Float64.Fin (math.radians x).
Proof. reflexivity. Qed.

(** As soon as one input is NaN the result is NaN, and nothing is raised. *)
Lemma Float64_haversine_na (lon1 lat1 lon2 lat2 : Float64.t) :
  Float64.isna lon1 || Float64.isna lat1
  || Float64.isna lon2 || Float64.isna lat2 = true ->
  Float64.haversine lon1 lat1 lon2 lat2 = Return Float64.NaN.
Proof. intros H. unfold Float64.haversine. rewrite H. reflexivity. Qed.

Lemma Float64_haversine_Fin (lon1 lat1 lon2 lat2 : R) :
  Float64.haversine (Float64.Fin lon1) (Float64.Fin lat1)
                    (Float64.Fin lon2) (Float64.Fin lat2)
  = Return (Float64.Fin (hav_m lon1 lat1 lon2 lat2)).
Proof.
  pose proof (hav_a_range (math.radians lon1) (math.radians lat1)
                          (math.radians lon2) (math.radians lat2)) as Ha.
  pose proof (sqrt_unit_range Ha) as Hs.
  assert (Hs' : -1 <= R_sqrt.sqrt
                  (hav_a (math.radians lon1) (math.radians lat1)
                         (math.radians lon2) (math.radians lat2)) <= 1)
    by lra.
  unfold hav_m, Float64.haversine.
  cbn [Float64.isna orb]. rewrite !radians_Fin.
  cbn [Float64.sub Float64.half Float64.sin Float64.cos Float64.pow2
       Float64.mul Float64.add bind].
  unfold Float64.sqrt.
  rewrite math_sqrt_total by exact (proj1 Ha). cbn [bind].
  unfold Float64.asin.
  rewrite math_asin_total by exact Hs'. reflexivity.
Qed.

(** On numbers and NaN the two models of the distance function agree. *)
Lemma Float64_haversine_of_float (lon1 lat1 lon2 lat2 : float) :
  Float64.haversine (Float64.of_float lon1) (Float64.of_float lat1)
                    (Float64.of_float lon2) (Float64.of_float lat2)
  = (d <- haversine lon1 lat1 lon2 lat2 ;; Return (Float64.of_float d)).
Proof.
  destruct lon1 as [x1|], lat1 as [y1|], lon2 as [x2|], lat2 as [y2|];
    try reflexivity.
  cbn [Float64.of_float]. rewrite Float64_haversine_Fin, haversine_some.
  reflexivity.
Qed.

(** An infinite latitude raises, whatever the other inputs that are not
    NaN: [math.cos] of it is called before any NaN can reach [math.sqrt]. *)
Lemma Float64_haversine_infinite_latitude
      (s : bool) (lon1 lon2 lat : Float64.t) :
  Float64.isna lon1 = false -> Float64.isna lon2 = false ->
  Float64.isna lat = false ->
  Float64.haversine lon1 (Float64.Inf s) lon2 lat = Raise ValueError
  /\ Float64.haversine lon1 lat lon2 (Float64.Inf s) = Raise ValueError.
Proof.
  intros H1 H2 H3. unfold Float64.haversine. rewrite H1, H2, H3.
  cbn [Float64.isna orb]. rewrite !radians_Inf.
  destruct lat as [y | s' |]; [| | discriminate].
  - rewrite radians_Fin. split; reflexivity.
  - rewrite radians_Inf. split; destruct s, s'; reflexivity.
Qed.

(** C7 (defect).  The guard of the source tests for NaN only.  An
    infinite longitude or latitude is not NaN; on it [math.sin] or
    [math.cos] raises [ValueError] and the distance function raises with it,
    where it is to return a distance and never to raise. *)
Theorem haversine_raises_on_infinite_input :
  Float64.isna (Float64.Inf false) = false
  /\ Float64.isna (Float64.Fin 0) = false
  /\ Float64.haversine (Float64.Inf false) (Float64.Fin 0)
                       (Float64.Fin 0) (Float64.Fin 0)
     = Raise ValueError
  /\ Float64.haversine (Float64.Fin 0) (Float64.Inf false)
                       (Float64.Fin 0) (Float64.Fin 0)
     = Raise ValueError.
Proof.
  split; [reflexivity |]. split; [reflexivity |]. split.
  - unfold Float64.haversine. cbn [Float64.isna orb].
    rewrite radians_Inf, !radians_Fin. reflexivity.
  - apply (@Float64_haversine_infinite_latitude
             false (Float64.Fin 0) (Float64.Fin 0) (Float64.Fin 0));
      reflexivity.
Qed.

(** C8, as stated, fails: the point of longitude plus infinity and
    latitude 0 has two coordinates that are not NaN, and its distance to
    itself is NaN, not 0: the difference of the two longitudes is NaN. *)
Lemma haversine_infinite_point_not_zero :
  Float64.isna (Float64.Inf false) = false
  /\ Float64.isna (Float64.Fin 0) = false
  /\ Float64.haversine (Float64.Inf false) (Float64.Fin 0)
                       (Float64.Inf false) (Float64.Fin 0)
     = Return Float64.NaN
  /\ Float64.haversine (Float64.Inf false) (Float64.Fin 0)
                       (Float64.Inf false) (Float64.Fin 0)
     <> Return (Float64.Fin 0).
Proof.
  assert (E : Float64.haversine (Float64.Inf false) (Float64.Fin 0)
                                (Float64.Inf false) (Float64.Fin 0)
              = Return Float64.NaN).
  { unfold Float64.haversine. cbn [Float64.isna orb].
    rewrite radians_Inf, !radians_Fin. reflexivity. }
  repeat split; try exact E. rewrite E. discriminate.
Qed.

(** C8, amended.  On inputs that are not NaN the two orders of the
    points have the same outcome: the same distance, or NaN both, or
    [ValueError] both.  The distance from a point with two finite
    coordinates to itself is 0. *)
Theorem haversine_symmetric_and_zero_on_finite_points :
  (forall lon1 lat1 lon2 lat2 : Float64.t,
      Float64.isna lon1 = false -> Float64.isna lat1 = false ->
      Float64.isna lon2 = false -> Float64.isna lat2 = false ->
      Float64.haversine lon1 lat1 lon2 lat2
      = Float64.haversine lon2 lat2 lon1 lat1)
  /\ (forall lon lat : R,
        Float64.haversine (Float64.Fin lon) (Float64.Fin lat)
                          (Float64.Fin lon) (Float64.Fin lat)
        = Return (Float64.Fin 0)).
Proof.
  split.
  - intros lon1 lat1 lon2 lat2 H1 H2 H3 H4.
    destruct lat1 as [y1 | s1 |]; [| | discriminate].
    2: { rewrite (proj1 (@Float64_haversine_infinite_latitude
                           s1 lon1 lon2 lat2 H1 H3 H4)).
         rewrite (proj2 (@Float64_haversine_infinite_latitude
                           s1 lon2 lon1 lat2 H3 H1 H4)).
         reflexivity. }
    destruct lat2 as [y2 | s2 |]; [| | discriminate].
    2: { rewrite (proj2 (@Float64_haversine_infinite_latitude
                           s2 lon1 lon2 (Float64.Fin y1) H1 H3 H2)).
         rewrite (proj1 (@Float64_haversine_infinite_latitude
                           s2 lon2 lon1 (Float64.Fin y1) H3 H1 H2)).
         reflexivity. }
    destruct lon1 as [x1 | t1 |], lon2 as [x2 | t2 |]; try discriminate.
    + rewrite !Float64_haversine_Fin. unfold hav_m.
      rewrite (hav_a_sym (math.radians x1)). reflexivity.
    + unfold Float64.haversine. cbn [Float64.isna orb].
      rewrite !radians_Inf, !radians_Fin. destruct t2; reflexivity.
    + unfold Float64.haversine. cbn [Float64.isna orb].
      rewrite !radians_Inf, !radians_Fin. destruct t1; reflexivity.
    + unfold Float64.haversine. cbn [Float64.isna orb].
      rewrite !radians_Inf, !radians_Fin.
      destruct t1, t2;
        cbn [Float64.sub Bool.eqb negb Float64.half Float64.sin Float64.cos
             Float64.pow2 Float64.mul Float64.add bind Float64.sqrt
             Float64.asin];
        try reflexivity;
        rewrite (Rmult_comm (Rtrigo_def.cos (math.radians y1))); reflexivity.
  - intros lon lat. rewrite Float64_haversine_Fin. unfold hav_m.
    rewrite hav_a_self, sqrt_0, asin_0. do 2 f_equal. ring.
Qed.

Lemma haversine_symmetric_and_zero_on_finite_points_witness :
  Float64.isna (Float64.Inf false) = false
  /\ Float64.isna (Float64.Fin 10) = false
  /\ Float64.isna (Float64.Fin 106) = false
  /\ Float64.isna (Float64.Fin 11) = false
  /\ Float64.haversine (Float64.Inf false) (Float64.Fin 10)
                       (Float64.Fin 106) (Float64.Fin 11)
     = Float64.haversine (Float64.Fin 106) (Float64.Fin 11)
                         (Float64.Inf false) (Float64.Fin 10).
Proof.
  repeat split.
  exact (proj1 haversine_symmetric_and_zero_on_finite_points
               (Float64.Inf false) (Float64.Fin 10)
               (Float64.Fin 106) (Float64.Fin 11)
               eq_refl eq_refl eq_refl eq_refl).
Defined.

(** In real arithmetic the bounds 0 and 1 of [a] are attained: [a] is 0
    between (-180, 91) and (0, 89), and 1 between two antipodal points such
    as (-180, 8) and (0, -8).  The source evaluates the same expression in
    binary64 and rounds every operation: at such inputs its [a] has no
    margin inside the domain of [math.sqrt] and [math.asin]. *)
Lemma hav_a_attains_its_bounds :
  hav_a (math.radians (-180)) (math.radians 91)
        (math.radians 0) (math.radians 89) = 0
  /\ (forall lat : R,
        hav_a (math.radians (-180)) (math.radians lat)
              (math.radians 0) (math.radians (- lat)) = 1).
Proof.
  unfold hav_a, math.radians. split.
  - replace ((0 * (PI / 180) - -180 * (PI / 180)) / 2) with (PI / 2) by field.
    replace ((89 * (PI / 180) - 91 * (PI / 180)) / 2) with (- (PI / 180))
      by field.
    replace (91 * (PI / 180)) with (PI / 2 + PI / 180) by field.
    replace (89 * (PI / 180)) with (PI / 2 - PI / 180) by field.
    rewrite sin_neg, sin_PI2, cos_shift.
    rewrite (sin_cos (PI / 180)). ring.
  - intros lat.
    replace ((0 * (PI / 180) - -180 * (PI / 180)) / 2) with (PI / 2) by field.
    replace ((- lat * (PI / 180) - lat * (PI / 180)) / 2)
      with (- (lat * (PI / 180))) by field.
    replace (- lat * (PI / 180)) with (- (lat * (PI / 180))) by ring.
    rewrite sin_neg, cos_neg, sin_PI2.
    pose proof (sin2_cos2 (lat * (PI / 180))) as H. unfold Rsqr in H.
    nra.
Qed.

End HaversineFacts.

(** ** Anomaly filter *)

Section FilterFacts.
Local Open Scope R_scope.

Lemma float_gt_anomalous (T : R) (r : drow) :
  float_gt (Speed_kmh r) T = true <-> anomalous T r.
Proof.
  unfold anomalous, float_gt. destruct (Speed_kmh r) as [s|].
  - destruct (Rgt_dec s T) as [H | H]; split; intros H'.
    + exists s. auto.
    + reflexivity.
    + discriminate.
    + destruct H' as (s' & E & Hs). injection E as <-. contradiction.
  - split; [discriminate | intros (s & E & _); discriminate].
Qed.

Lemma filter_invalid_moves_filter (df : list drow) (T : R) :
  filter_invalid_moves df T
  = filter (fun r => negb (float_gt (Speed_kmh r) T)) df.
Proof.
  unfold filter_invalid_moves, filter_invalid_moves_report, invalid_mask,
    series_gt, fillna. cbn [fst].
  induction df as [| r df IH]; [reflexivity |].
  cbn [map boolean_mask filter].
  destruct (float_gt (Speed_kmh r) T); cbn [negb]; rewrite IH; reflexivity.
Qed.

(** C2.  At every threshold the anomaly filter takes out exactly the
    points whose speed is a number strictly above the threshold and leaves
    the others in place; so a point is retained if and only if it is in the
    input and not anomalous, a point with NaN speed is never anomalous, no
    retained point is anomalous, and the mask is a function of the speed
    column alone. *)
Theorem filter_invalid_moves_removes_exactly_fast_points :
  forall (df : list drow) (T : R),
    removes (anomalous T) df (filter_invalid_moves df T)
    /\ (forall r : drow,
          In r (filter_invalid_moves df T) <-> In r df /\ ~ anomalous T r)
    /\ (forall r : drow, Speed_kmh r = None -> ~ anomalous T r)
    /\ Forall (fun r => ~ anomalous T r) (filter_invalid_moves df T)
    /\ invalid_mask df T = map (fun s => float_gt s T) (map Speed_kmh df).
Proof.
  intros df T. rewrite filter_invalid_moves_filter.
  assert (Hdec : forall r : drow,
             negb (float_gt (Speed_kmh r) T) = true <-> ~ anomalous T r).
  { intros r. rewrite <- float_gt_anomalous.
    destruct (float_gt (Speed_kmh r) T); cbn; split; intros H;
      try reflexivity; try discriminate; auto. }
  repeat split.
  - induction df as [| r df IH]; cbn [filter]; [constructor |].
    destruct (negb (float_gt (Speed_kmh r) T)) eqn:E.
    + apply removes_keep; [apply Hdec; exact E | exact IH].
    + apply removes_drop; [| exact IH].
      apply float_gt_anomalous. destruct (float_gt (Speed_kmh r) T);
        [reflexivity | discriminate].
  - apply filter_In in H. tauto.
  - apply filter_In in H. apply Hdec. tauto.
  - intros [Hin Hn]. apply filter_In. split; [exact Hin | apply Hdec; exact Hn].
  - intros r E (s & E' & _). congruence.
  - apply Forall_forall. intros r Hr. apply filter_In in Hr.
    apply Hdec. tauto.
  - unfold invalid_mask, series_gt, fillna. rewrite !map_map. reflexivity.
Qed.

End FilterFacts.

(** ** Stable sorting *)

Section SortFacts.
Variable A : Type.
Variable leb : A -> A -> bool.

Let le (x y : A) : Prop := leb x y = true.

Lemma insert_perm (x : A) (l : list A) : Permutation (insert leb x l) (x :: l).
Proof.
  induction l as [| y l IH]; cbn; [reflexivity |].
  destruct (leb x y); [reflexivity |].
  rewrite IH. apply perm_swap.
Qed.

Lemma sort_perm (l : list A) : Permutation (sort leb l) l.
Proof.
  induction l as [| x l IH]; cbn; [reflexivity |].
  rewrite insert_perm. constructor. exact IH.
Qed.

Lemma sort_length (l : list A) : length (sort leb l) = length l.
Proof. apply Permutation_length, sort_perm. Qed.

(** Elements of one class of ties keep their order. *)
Lemma filter_insert (p : A -> bool) (x : A) (l : list A) :
  (forall y, p x = true -> p y = true -> leb x y = true) ->
  filter p (insert leb x l) = filter p (x :: l).
Proof.
  intros Hp. induction l as [| y l IH]; [reflexivity |].
  cbn [insert]. destruct (leb x y) eqn:E; [reflexivity |].
  cbn [filter] in *. rewrite IH.
  destruct (p x) eqn:Ex, (p y) eqn:Ey; try reflexivity.
  rewrite (Hp y eq_refl Ey) in E. discriminate.
Qed.

Lemma filter_sort (p : A -> bool) (l : list A) :
  (forall x y, p x = true -> p y = true -> leb x y = true) ->
  filter p (sort leb l) = filter p l.
Proof.
  intros Hp. induction l as [| x l IH]; [reflexivity |].
  cbn [sort]. rewrite filter_insert by (intros y; apply Hp).
  cbn [filter]. rewrite IH. reflexivity.
Qed.

Lemma sort_sorted_id (l : list A) : Sorted le l -> sort leb l = l.
Proof.
  induction 1 as [| x l Hl IH Hd]; [reflexivity |].
  cbn [sort]. rewrite IH. destruct Hd as [| y l Hxy]; [reflexivity |].
  cbn [insert]. unfold le in Hxy. rewrite Hxy. reflexivity.
Qed.

Hypothesis leb_total : forall x y, leb x y = true \/ leb y x = true.
Hypothesis leb_trans : forall x y z, leb x y = true -> leb y z = true -> leb x z = true.

Lemma insert_sorted (x : A) (l : list A) :
  StronglySorted le l -> StronglySorted le (insert leb x l).
Proof.
  induction 1 as [| y l Hl IH Hy]; cbn [insert].
  - repeat constructor.
  - destruct (leb x y) eqn:E.
    + constructor; [constructor; assumption |].
      constructor; [exact E |].
      eapply Forall_impl; [| exact Hy]. intros z Hz. eapply leb_trans; eassumption.
    + constructor; [exact IH |].
      assert (Hyx : le y x) by (destruct (leb_total x y); [congruence | assumption]).
      eapply Permutation_Forall; [symmetry; apply insert_perm |].
      constructor; assumption.
Qed.

Lemma sort_sorted (l : list A) : StronglySorted le (sort leb l).
Proof.
  induction l as [| x l IH]; cbn [sort]; [constructor | apply insert_sorted, IH].
Qed.

Lemma sort_idem (l : list A) : sort leb (sort leb l) = sort leb l.
Proof. apply sort_sorted_id, StronglySorted_Sorted, sort_sorted. Qed.
End SortFacts.

(** ** Feature deriver *)

Section FeatureFacts.
Local Open Scope Z_scope.

Lemma DateTime_leb_spec (a b : option Z) :
  DateTime_leb a b = true <-> time_le a b.
Proof.
  destruct a, b; cbn; try tauto; try (split; [discriminate | contradiction]).
  apply Z.leb_le.
Qed.

Lemma key_leb_spec (r s : point) :
  key_leb r s = true <-> vehicle_time_le r s.
Proof.
  unfold key_leb, vehicle_time_le.
  rewrite orb_true_iff, andb_true_iff, Z.ltb_lt, Z.eqb_eq, DateTime_leb_spec.
  reflexivity.
Qed.

Lemma DateTime_leb_total (a b : option Z) :
  DateTime_leb a b = true \/ DateTime_leb b a = true.
Proof. destruct a, b; cbn; auto. rewrite !Z.leb_le. lia. Qed.

Lemma DateTime_leb_trans (a b c : option Z) :
  DateTime_leb a b = true -> DateTime_leb b c = true -> DateTime_leb a c = true.
Proof.
  destruct a, b, c; cbn; auto; try discriminate.
  rewrite !Z.leb_le. lia.
Qed.

Lemma key_leb_total (r s : point) : key_leb r s = true \/ key_leb s r = true.
Proof.
  rewrite !key_leb_spec. unfold vehicle_time_le.
  destruct (Z.lt_trichotomy (TaxiID r) (TaxiID s)) as [H | [H | H]]; auto.
  destruct (DateTime_leb_total (DateTime r) (DateTime s)) as [H' | H'];
    apply DateTime_leb_spec in H'; auto.
Qed.

Lemma key_leb_trans (r s u : point) :
  key_leb r s = true -> key_leb s u = true -> key_leb r u = true.
Proof.
  rewrite !key_leb_spec. unfold vehicle_time_le.
  intros [H1 | [H1 H1']] [H2 | [H2 H2']]; try (left; lia).
  right. split; [lia |].
  apply DateTime_leb_spec. eapply DateTime_leb_trans; apply DateTime_leb_spec; eassumption.
Qed.

Lemma DateTime_eqb_leb (a b t : option Z) :
  DateTime_eqb a t = true -> DateTime_eqb b t = true -> DateTime_leb a b = true.
Proof.
  destruct a, b, t; cbn; try discriminate; auto.
  rewrite !Z.eqb_eq, Z.leb_le. lia.
Qed.

Lemma same_key_ties (v : Z) (t : option Z) (x y : point) :
  same_key v t x = true -> same_key v t y = true -> key_leb x y = true.
Proof.
  unfold same_key, key_leb. rewrite !andb_true_iff, !Z.eqb_eq.
  intros [Hx Hx'] [Hy Hy']. apply orb_true_iff. right.
  apply andb_true_iff. split; [apply Z.eqb_eq; lia |].
  eapply DateTime_eqb_leb; eassumption.
Qed.

Lemma mapM_pure {X Y : Type} (f : X -> result Y) (g : X -> Y) (l : list X) :
  (forall x, f x = Return (g x)) -> mapM f l = Return (map g l).
Proof.
  intros H. induction l as [| x l IH]; [reflexivity |].
  cbn [mapM map]. rewrite H, IH. reflexivity.
Qed.

Lemma derive_returns (rp : point * option point) :
  derive rp = Return (derive_value rp).
Proof.
  destruct rp as [r prev]. unfold derive, derive_value.
  destruct (notna (shifted Latitude prev)).
  - rewrite haversine_spec_distance. reflexivity.
  - reflexivity.
Qed.

Lemma calculate_returns (df : list point) :
  calculate_trajectory_features df
  = Return (features_from [] (sort key_leb df)).
Proof.
  unfold calculate_trajectory_features, features_from, groupby_shift,
    sort_values_TaxiID_DateTime.
  apply mapM_pure, derive_returns.
Qed.

Lemma features_from_cons (before : list point) (r : point) (rs : list point) :
  features_from before (r :: rs)
  = derive_value (r, find (fun p => TaxiID p =? TaxiID r) before)
    :: features_from (r :: before) rs.
Proof. reflexivity. Qed.

Lemma pt_derive_value (r : point) (prev : option point) :
  pt (derive_value (r, prev)) = r.
Proof. reflexivity. Qed.

Lemma features_from_pt (df before : list point) :
  map pt (features_from before df) = df.
Proof.
  revert before. induction df as [| r rs IH]; intros before; [reflexivity |].
  rewrite features_from_cons. cbn [map]. rewrite IH, pt_derive_value. reflexivity.
Qed.

Lemma derive_value_first (r : point) :
  derive_value (r, None) = mkDrow r None None None.
Proof. reflexivity. Qed.

Lemma cons_inj {X : Type} (x y : X) (l l' : list X) :
  x :: l = y :: l' -> x = y /\ l = l'.
Proof. intros H. injection H. auto. Qed.

Lemma features_from_first (df before : list point) (pre : list drow)
      (d : drow) (post : list drow) :
  features_from before df = pre ++ d :: post ->
  (forall q : point, In q before -> TaxiID q <> TaxiID d) ->
  first_of_vehicle pre d ->
  TimeDiff_s d = None /\ DistJump_m d = None /\ Speed_kmh d = None.
Proof.
  revert before pre. induction df as [| r rs IH]; intros before pre E Hb Hp.
  - destruct pre; discriminate.
  - rewrite features_from_cons in E. destruct pre as [| d0 pre].
    + apply cons_inj in E. destruct E as [E _]. subst d.
      rewrite pt_derive_value in Hb.
      assert (Hf : find (fun p => TaxiID p =? TaxiID r) before = None).
      { destruct (find _ before) as [p |] eqn:F; [| reflexivity].
        apply find_some in F. destruct F as [Hin Hk].
        apply Z.eqb_eq in Hk. exfalso. exact (Hb p Hin Hk). }
      rewrite Hf, derive_value_first. cbn. auto.
    + apply cons_inj in E. destruct E as [E0 E].
      apply (IH (r :: before) pre E).
      * intros q [<- | Hq]; [| apply Hb; assumption].
        rewrite <- (pt_derive_value r (find (fun p => TaxiID p =? TaxiID r) before)).
        rewrite E0. apply (Hp d0). left. reflexivity.
      * intros q Hq. apply Hp. right. exact Hq.
Qed.

Lemma derive_value_speed (rp : point * option point) :
  Speed_kmh (derive_value rp)
  = spec_speed (TimeDiff_s (derive_value rp)) (DistJump_m (derive_value rp)).
Proof.
  destruct rp as [r prev]. unfold derive_value.
  cbn [Speed_kmh TimeDiff_s DistJump_m].
  generalize (diff_total_seconds prev r) as T.
  generalize (spec_distance (shifted Longitude prev) (shifted Latitude prev)
                            (Longitude r) (Latitude r)) as D.
  intros D T. unfold spec_speed, float_gt.
  destruct (notna (shifted Latitude prev)); cbn [andb].
  - destruct D as [d |], T as [t |]; cbn; try reflexivity.
    + destruct (Rgt_dec t (1 / 1000000)); reflexivity.
    + destruct (Rgt_dec t (1 / 1000000)); reflexivity.
  - destruct T; reflexivity.
Qed.

Lemma StronglySorted_impl {X : Type} (P Q : X -> X -> Prop) (l : list X) :
  (forall x y, P x y -> Q x y) -> StronglySorted P l -> StronglySorted Q l.
Proof.
  intros H. induction 1 as [| x l Hl IH Hx]; constructor; [exact IH |].
  eapply Forall_impl; [| exact Hx]. intros y. apply H.
Qed.

Lemma sort_values_sorted (df : list point) :
  StronglySorted vehicle_time_le (sort key_leb df).
Proof.
  eapply StronglySorted_impl;
    [| apply (sort_sorted key_leb key_leb_total key_leb_trans)].
  intros x y. apply key_leb_spec.
Qed.

Lemma spec_speed_slow (t d : float) :
  (t = None -> spec_speed t d = None)
  /\ (forall x : R, t = Some x -> (x <= 1 / 1000000)%R -> spec_speed t d = None).
Proof.
  split.
  - intros ->. reflexivity.
  - intros x -> Hx. unfold spec_speed. destruct d; [| reflexivity].
    destruct (Rgt_dec x (1 / 1000000)); [lra | reflexivity].
Qed.

(** C3.  The feature deriver returns, and on every row it returns the
    speed is [(dist_jump_m / time_diff_s) * 3.6] when [time_diff_s > 1e-6]
    and [dist_jump_m] is a number, and NaN otherwise; in particular it is NaN
    when [time_diff_s] is NaN or at most [1e-6]. *)
Theorem speed_kmh_formula :
  forall df : list point,
  exists out : list drow,
    calculate_trajectory_features df = Return out
    /\ Forall (fun r : drow =>
                 Speed_kmh r = spec_speed (TimeDiff_s r) (DistJump_m r)
                 /\ (TimeDiff_s r = None -> Speed_kmh r = None)
                 /\ (forall t : R, TimeDiff_s r = Some t ->
                                   (t <= 1 / 1000000)%R -> Speed_kmh r = None))
              out.
Proof.
  intros df. eexists. split; [apply calculate_returns |].
  apply Forall_forall. intros d Hd. unfold features_from in Hd.
  apply in_map_iff in Hd. destruct Hd as (rp & <- & _).
  rewrite derive_value_speed.
  split; [reflexivity |]. apply spec_speed_slow.
Qed.

(** C4.  The feature deriver orders the points by vehicle and, within a
    vehicle, by ascending timestamp (missing timestamps last), and the sort
    is stable: for every vehicle and timestamp, the points with that vehicle
    and timestamp come out in the order they came in. *)
Theorem sort_by_vehicle_then_time_is_stable :
  forall df : list point,
  exists out : list drow,
    calculate_trajectory_features df = Return out
    /\ StronglySorted vehicle_time_le (map pt out)
    /\ (forall (v : Z) (t : option Z),
          filter (same_key v t) (map pt out) = filter (same_key v t) df).
Proof.
  intros df. eexists. split; [apply calculate_returns |].
  rewrite features_from_pt. split; [apply sort_values_sorted |].
  intros v t. apply filter_sort. apply same_key_ties.
Qed.

(** C6.  The feature deriver returns on every frame; the rows it returns
    are the input points, none dropped and none added, in vehicle-then-time
    order; and a row that is the first of its vehicle has NaN in the three
    derived columns. *)
Theorem feature_deriver_keeps_points_and_first_is_null :
  forall df : list point,
  exists out : list drow,
    calculate_trajectory_features df = Return out
    /\ Permutation (map pt out) df
    /\ StronglySorted vehicle_time_le (map pt out)
    /\ (forall (pre : list drow) (r : drow) (post : list drow),
          out = pre ++ r :: post ->
          first_of_vehicle pre r ->
          TimeDiff_s r = None /\ DistJump_m r = None /\ Speed_kmh r = None).
Proof.
  intros df. eexists. split; [apply calculate_returns |].
  rewrite features_from_pt.
  split; [apply sort_perm |]. split; [apply sort_values_sorted |].
  intros pre r post E Hfirst.
  eapply features_from_first; [exact E | | exact Hfirst].
  intros q [].
Qed.

(** C9.  The feature deriver is idempotent: run on the points of its own
    output, it returns that output again, the same rows in the same order
    with the same derived values. *)
Theorem feature_deriver_idempotent :
  forall df : list point,
  exists out : list drow,
    calculate_trajectory_features df = Return out
    /\ calculate_trajectory_features (map pt out) = Return out.
Proof.
  intros df. eexists. split; [apply calculate_returns |].
  rewrite calculate_returns, features_from_pt, sort_idem;
    [reflexivity | apply key_leb_total | apply key_leb_trans].
Qed.

End FeatureFacts.

(** ** Grouping *)

Section GroupFacts.
Local Open Scope Z_scope.

Lemma In_unique (l : list Z) (y : Z) : In y (unique l) <-> In y l.
Proof.
  induction l as [| x l IH]; cbn [unique]; [tauto |].
  cbn [In]. rewrite filter_In, IH, negb_true_iff, Z.eqb_neq.
  destruct (Z.eq_dec x y) as [-> | Hne]; [tauto |].
  split; [tauto |]. intros [H | H]; [tauto |]. right. split; [exact H | congruence].
Qed.

Lemma NoDup_filter {X : Type} (p : X -> bool) (l : list X) :
  NoDup l -> NoDup (filter p l).
Proof.
  induction 1 as [| x l Hx Hl IH]; cbn [filter]; [constructor |].
  destruct (p x); [| exact IH].
  constructor; [| exact IH]. rewrite filter_In. tauto.
Qed.

Lemma NoDup_unique (l : list Z) : NoDup (unique l).
Proof.
  induction l as [| x l IH]; cbn [unique]; constructor.
  - rewrite filter_In, Z.eqb_refl. cbn. intros [_ H]. discriminate.
  - apply NoDup_filter, IH.
Qed.

Lemma filter_comm {X : Type} (p q : X -> bool) (l : list X) :
  filter p (filter q l) = filter q (filter p l).
Proof.
  induction l as [| x l IH]; [reflexivity |]. cbn [filter].
  destruct (p x) eqn:Ep, (q x) eqn:Eq; cbn [filter];
    rewrite ?Ep, ?Eq, IH; reflexivity.
Qed.

Lemma filter_all {X : Type} (p : X -> bool) (l : list X) :
  (forall x, In x l -> p x = true) -> filter p l = l.
Proof.
  induction l as [| x l IH]; intros H; [reflexivity |]. cbn [filter].
  rewrite (H x) by (left; reflexivity). f_equal.
  apply IH. intros y Hy. apply H. right. exact Hy.
Qed.

Lemma unique_filter (p : Z -> bool) (l : list Z) :
  unique (filter p l) = filter p (unique l).
Proof.
  induction l as [| x l IH]; [reflexivity |]. cbn [filter unique].
  destruct (p x) eqn:E; cbn [unique filter].
  - rewrite IH. f_equal. apply filter_comm.
  - rewrite IH, filter_comm. symmetry. apply filter_all.
    intros y Hy. apply filter_In in Hy. destruct Hy as [_ Hy].
    apply negb_true_iff, Z.eqb_neq. intros ->. congruence.
Qed.

Lemma map_filter_key {X : Type} (key : X -> Z) (p : Z -> bool) (l : list X) :
  map key (filter (fun r => p (key r)) l) = filter p (map key l).
Proof.
  induction l as [| x l IH]; [reflexivity |]. cbn [filter map].
  destruct (p (key x)); cbn [map]; rewrite IH; reflexivity.
Qed.

Lemma StronglySorted_filter {X : Type} (R : X -> X -> Prop) (p : X -> bool)
      (l : list X) :
  StronglySorted R l -> StronglySorted R (filter p l).
Proof.
  induction 1 as [| x l Hl IH Hx]; cbn [filter]; [constructor |].
  destruct (p x); [| exact IH].
  constructor; [exact IH |].
  apply Forall_forall. intros y Hy. apply filter_In in Hy.
  rewrite Forall_forall in Hx. apply Hx. tauto.
Qed.

Lemma unique_sorted (l : list Z) :
  StronglySorted Z.le l -> StronglySorted Z.le (unique l).
Proof.
  induction 1 as [| x l Hl IH Hx]; cbn [unique]; constructor.
  - apply StronglySorted_filter, IH.
  - apply Forall_forall. intros y Hy. apply filter_In in Hy.
    destruct Hy as [Hy _]. apply (proj1 (In_unique _ _)) in Hy.
    rewrite Forall_forall in Hx. apply Hx, Hy.
Qed.

Lemma Zleb_total (x y : Z) : (x <=? y) = true \/ (y <=? x) = true.
Proof. rewrite !Z.leb_le. lia. Qed.

Lemma Zleb_trans (x y z : Z) :
  (x <=? y) = true -> (y <=? z) = true -> (x <=? z) = true.
Proof. rewrite !Z.leb_le. lia. Qed.

Lemma sort_Z_sorted (l : list Z) : StronglySorted Z.le (sort Z.leb l).
Proof.
  eapply StronglySorted_impl; [| apply (sort_sorted Z.leb Zleb_total Zleb_trans)].
  intros x y. apply Z.leb_le.
Qed.

Lemma sort_Z_id (l : list Z) : StronglySorted Z.le l -> sort Z.leb l = l.
Proof.
  intros H. apply sort_sorted_id, StronglySorted_Sorted.
  eapply StronglySorted_impl; [| exact H]. intros x y. apply Z.leb_le.
Qed.

(** Two ascending lists with the same elements are equal. *)
Lemma sorted_perm_eq (l1 l2 : list Z) :
  StronglySorted Z.le l1 -> StronglySorted Z.le l2 -> Permutation l1 l2 ->
  l1 = l2.
Proof.
  intros H1. revert l2. induction H1 as [| x l1 Hl1 IH Hx]; intros l2 H2 P.
  - apply Permutation_nil in P. auto.
  - destruct H2 as [| y l2 Hl2 Hy].
    + apply Permutation_sym, Permutation_nil in P. discriminate.
    + assert (x = y).
      { rewrite Forall_forall in Hx, Hy.
        assert (Hxy : In x (y :: l2))
          by (eapply Permutation_in; [exact P | left; reflexivity]).
        assert (Hyx : In y (x :: l1))
          by (eapply Permutation_in; [symmetry; exact P | left; reflexivity]).
        destruct Hxy as [-> | Hxy]; [reflexivity |].
        destruct Hyx as [-> | Hyx]; [reflexivity |].
        specialize (Hx y Hyx). specialize (Hy x Hxy). lia. }
      subst y. f_equal. apply IH; [exact Hl2 |].
      eapply Permutation_cons_inv. exact P.
Qed.

Lemma Permutation_filter {X : Type} (p : X -> bool) (l l' : list X) :
  Permutation l l' -> Permutation (filter p l) (filter p l').
Proof.
  induction 1 as [| x l l' P IH | x y l | l l' l'' P IH P' IH'];
    cbn [filter].
  - constructor.
  - destruct (p x); [constructor |]; exact IH.
  - destruct (p x), (p y); try reflexivity. apply perm_swap.
  - etransitivity; eassumption.
Qed.

End GroupFacts.

Section GroupByFacts.
Local Open Scope Z_scope.
Variable Row : Type.
Variable key : Row -> Z.
Variable label : Row -> Z.

Lemma group_keys_perm (df : list Row) :
  Permutation (group_keys key df) (unique (map key df)).
Proof. apply sort_perm. Qed.

Lemma In_group_keys (df : list Row) (k : Z) :
  In k (group_keys key df) <-> In k (map key df).
Proof.
  rewrite <- (In_unique (map key df)). split; apply Permutation_in;
    [| symmetry]; apply group_keys_perm.
Qed.

Lemma NoDup_group_keys (df : list Row) : NoDup (group_keys key df).
Proof.
  eapply Permutation_NoDup; [symmetry; apply group_keys_perm | apply NoDup_unique].
Qed.

Lemma group_keys_sorted (df : list Row) :
  StronglySorted Z.le (group_keys key df).
Proof. apply sort_Z_sorted. Qed.

Lemma get_group_key (k : Z) (df : list Row) (r : Row) :
  In r (get_group key k df) -> key r = k.
Proof. unfold get_group. rewrite filter_In, Z.eqb_eq. tauto. Qed.

Lemma groups_skip (ks : list Z) (x : Row) (l : list Row) :
  ~ In (key x) ks ->
  map (fun k => get_group key k (x :: l)) ks
  = map (fun k => get_group key k l) ks.
Proof.
  intros Hx. apply map_ext_in. intros k Hk. unfold get_group. cbn [filter].
  destruct (key x =? k) eqn:E; [| reflexivity].
  apply Z.eqb_eq in E. subst k. contradiction.
Qed.

Lemma concat_groups_cons (ks : list Z) (x : Row) (l : list Row) :
  NoDup ks -> In (key x) ks ->
  Permutation (concat (map (fun k => get_group key k (x :: l)) ks))
              (x :: concat (map (fun k => get_group key k l) ks)).
Proof.
  induction 1 as [| k ks Hk Hks IH]; intros Hx; [contradiction |].
  cbn [map concat]. destruct (Z.eq_dec k (key x)) as [-> | Hne].
  - rewrite groups_skip by exact Hk.
    unfold get_group at 1. cbn [filter]. rewrite Z.eqb_refl. reflexivity.
  - destruct Hx as [Hx | Hx]; [contradiction |].
    rewrite (IH Hx). unfold get_group at 1. cbn [filter].
    replace (key x =? k) with false by (symmetry; apply Z.eqb_neq; congruence).
    symmetry. apply Permutation_middle.
Qed.

Lemma concat_groups_perm (ks : list Z) (l : list Row) :
  NoDup ks -> (forall r, In r l -> In (key r) ks) ->
  Permutation (concat (map (fun k => get_group key k l) ks)) l.
Proof.
  intros Hks. induction l as [| x l IH]; intros Hl.
  - clear. induction ks as [| k ks IHk]; [reflexivity | exact IHk].
  - rewrite concat_groups_cons; [| exact Hks | apply Hl; left; reflexivity].
    constructor. apply IH. intros r Hr. apply Hl. right. exact Hr.
Qed.

Lemma groups_perm (df : list Row) : Permutation (concat (groups key df)) df.
Proof.
  apply concat_groups_perm; [apply NoDup_group_keys |].
  intros r Hr. apply In_group_keys, in_map, Hr.
Qed.

Lemma concat_map_perm (f : list Row -> list Row) (gs : list (list Row)) :
  (forall g, Permutation (f g) g) ->
  Permutation (concat (map f gs)) (concat gs).
Proof.
  intros Hf. induction gs as [| g gs IH]; [reflexivity |].
  cbn [map concat]. apply Permutation_app; [apply Hf | exact IH].
Qed.

Lemma groupby_apply_perm (f : list Row -> list Row) (df : list Row) :
  (forall g, Permutation (f g) g) ->
  Permutation (groupby_apply key label f df) df.
Proof.
  intros Hf. unfold groupby_apply.
  destruct (negb _); [| reflexivity].
  rewrite concat_map_perm by exact Hf. apply groups_perm.
Qed.

(** Blocks of rows laid out in ascending key order have ascending keys. *)
Lemma keys_concat_sorted (b : Z -> list Row) (ks : list Z) :
  StronglySorted Z.le ks ->
  (forall k r, In r (b k) -> key r = k) ->
  StronglySorted Z.le (map key (concat (map b ks))).
Proof.
  intros Hks Hb. induction Hks as [| k ks Hks IH Hk]; [constructor |].
  cbn [map concat]. rewrite map_app.
  assert (Hrest : Forall (fun y => k <= y) (map key (concat (map b ks)))).
  { apply Forall_forall. intros y Hy. apply in_map_iff in Hy.
    destruct Hy as (r & <- & Hr). apply in_concat in Hr.
    destruct Hr as (g & Hg & Hr). apply in_map_iff in Hg.
    destruct Hg as (k' & <- & Hk'). rewrite (Hb k' r Hr).
    rewrite Forall_forall in Hk. apply Hk, Hk'. }
  assert (Hblock : Forall (fun y => y = k) (map key (b k))).
  { apply Forall_forall. intros y Hy. apply in_map_iff in Hy.
    destruct Hy as (r & <- & Hr). apply (Hb k r Hr). }
  induction Hblock as [| y ys Hy Hys IHb]; [exact IH |].
  cbn [app]. constructor; [exact IHb |]. subst y.
  apply Forall_app. split; [| exact Hrest].
  eapply Forall_impl; [| exact Hys]. intros z ->. lia.
Qed.

Lemma groupby_apply_keys (f : list Row -> list Row) (df : list Row) :
  (forall g, Permutation (f g) g) ->
  StronglySorted Z.le (map key df) ->
  map key (groupby_apply key label f df) = map key df.
Proof.
  intros Hf Hs.
  apply sorted_perm_eq;
    [| exact Hs | apply Permutation_map, groupby_apply_perm, Hf].
  unfold groupby_apply. destruct (negb _); [| exact Hs].
  unfold groups. rewrite map_map.
  apply (keys_concat_sorted (fun k => f (get_group key k df)));
    [apply group_keys_sorted |].
  intros k r Hr. eapply get_group_key, Permutation_in; [apply Hf | exact Hr].
Qed.

Lemma get_group_length (k : Z) (df : list Row) :
  length (get_group key k df)
  = length (filter (fun v => v =? k) (map key df)).
Proof.
  unfold get_group. rewrite <- (map_filter_key key (fun v => v =? k)).
  symmetry. apply length_map.
Qed.

Lemma get_group_groupby_filter (p : list Row -> bool) (k : Z) (df : list Row) :
  p (get_group key k df) = true ->
  get_group key k (groupby_filter key p df) = get_group key k df.
Proof.
  intros Hp. unfold groupby_filter, get_group at 1 3. rewrite filter_comm.
  apply filter_all. intros r Hr. apply filter_In in Hr.
  destruct Hr as [_ Hr]. apply Z.eqb_eq in Hr. rewrite Hr. exact Hp.
Qed.

End GroupByFacts.

(** ** Trajectory builder *)

Section BuilderFacts.
Local Open Scope Z_scope.

Lemma reset_index_from_keys (i : Z) (df : list drow) :
  map drow_TaxiID (reset_index_from i df) = map drow_TaxiID df.
Proof.
  revert i. induction df as [| r df IH]; intros i; [reflexivity |].
  cbn [reset_index_from map]. rewrite IH. reflexivity.
Qed.

Lemma reset_index_from_trajectory (i : Z) (df : list drow) (v : Z) :
  trajectory_of (reset_index_from i df) v = trajectory_of df v.
Proof.
  unfold trajectory_of, get_group, values_Latitude_Longitude.
  revert i. induction df as [| r df IH]; intros i; [reflexivity |].
  cbn [reset_index_from filter].
  change (drow_TaxiID (set_idx i r)) with (drow_TaxiID r).
  destruct (drow_TaxiID r =? v); cbn [map]; rewrite IH; reflexivity.
Qed.

Lemma reset_index_from_length (i : Z) (df : list drow) :
  length (reset_index_from i df) = length df.
Proof.
  rewrite <- (length_map drow_TaxiID), reset_index_from_keys. apply length_map.
Qed.

Lemma sort_values_DateTime_perm (g : list drow) :
  Permutation (sort_values_DateTime g) g.
Proof. apply sort_perm. Qed.

Lemma preprocess_data_unfold (df : list drow) :
  preprocess_data df
  = (traj_data <- extract_traj_data (processed df) ;;
     Return (traj_data, processed df, unique (map drow_TaxiID (processed df)))).
Proof. reflexivity. Qed.

Lemma extract_traj_data_cases (P : list drow) :
  extract_traj_data P
  = match P with
    | [] => Raise AttributeError
    | _ :: _ => Return (map (trajectory_of P) (group_keys drow_TaxiID P))
    end.
Proof.
  unfold extract_traj_data, groups. destruct P as [| r P]; [reflexivity |].
  destruct (group_keys drow_TaxiID (r :: P)) as [| k ks] eqn:E.
  - exfalso.
    assert (H : In (drow_TaxiID r) (group_keys drow_TaxiID (r :: P)))
      by (apply In_group_keys; left; reflexivity).
    rewrite E in H. exact H.
  - cbn [map]. rewrite map_map. reflexivity.
Qed.

Lemma processed_keys_perm (df : list drow) :
  Permutation (map drow_TaxiID (processed df)) (map drow_TaxiID (keep_two df)).
Proof.
  unfold processed, reset_index. rewrite reset_index_from_keys.
  apply Permutation_map, groupby_apply_perm, sort_values_DateTime_perm.
Qed.

Lemma processed_nil (df : list drow) : processed df = [] -> keep_two df = [].
Proof.
  intros H. pose proof (processed_keys_perm df) as P. rewrite H in P.
  apply Permutation_nil in P. destruct (keep_two df); [reflexivity | discriminate].
Qed.

Lemma keep_two_keys (df : list drow) :
  map drow_TaxiID (keep_two df) = filter (qualifies df) (map drow_TaxiID df).
Proof. apply (map_filter_key drow_TaxiID (qualifies df)). Qed.

Lemma processed_trajectory (df : list drow) (v : Z) :
  qualifies df v = true ->
  Permutation (trajectory_of (processed df) v) (trajectory_of df v).
Proof.
  intros Hv. unfold processed, reset_index. rewrite reset_index_from_trajectory.
  unfold trajectory_of, values_Latitude_Longitude. apply Permutation_map.
  rewrite <- (get_group_groupby_filter drow_TaxiID
                (fun x => (2 <=? length x)%nat) v df Hv).
  apply Permutation_filter, groupby_apply_perm, sort_values_DateTime_perm.
Qed.

Lemma trajectory_length (df : list drow) (v : Z) :
  length (trajectory_of df v) = length (get_group drow_TaxiID v df).
Proof. apply length_map. Qed.

(** Whatever the order of the input: the trajectories have two points at
    least and there are as many of them as IDs; the call raises only when no
    vehicle has two points. *)
Lemma preprocess_data_lengths (df : list drow) :
  match preprocess_data df with
  | Return (traj_data, _, traj_ids) =>
      Forall (fun t => (2 <= length t)%nat) traj_data
      /\ length traj_data = length traj_ids
  | Raise e => e = AttributeError /\ keep_two df = []
  end.
Proof.
  rewrite preprocess_data_unfold, extract_traj_data_cases.
  destruct (processed df) as [| r P] eqn:E.
  - cbn. split; [reflexivity | apply processed_nil, E].
  - cbn [bind]. rewrite <- E. split.
    + apply Forall_forall. intros t Ht. apply in_map_iff in Ht.
      destruct Ht as (v & <- & Hv).
      apply In_group_keys in Hv.
      assert (Hq : qualifies df v = true).
      { eapply Permutation_in in Hv; [| apply processed_keys_perm].
        rewrite keep_two_keys in Hv. apply filter_In in Hv. tauto. }
      rewrite (Permutation_length (processed_trajectory df v Hq)),
        trajectory_length.
      unfold qualifies in Hq. apply Nat.leb_le, Hq.
    + rewrite length_map. apply Permutation_length, group_keys_perm.
Qed.

Lemma ordered_by_vehicle_strongly (df : list drow) :
  ordered_by_vehicle df -> StronglySorted Z.le (map drow_TaxiID df).
Proof.
  apply Sorted_StronglySorted. intros x y z. apply Z.le_trans.
Qed.

Lemma processed_keys_ordered (df : list drow) :
  ordered_by_vehicle df ->
  map drow_TaxiID (processed df) = map drow_TaxiID (keep_two df).
Proof.
  intros H. unfold processed, reset_index. rewrite reset_index_from_keys.
  apply groupby_apply_keys; [apply sort_values_DateTime_perm |].
  rewrite keep_two_keys. apply StronglySorted_filter, ordered_by_vehicle_strongly, H.
Qed.

(** On a frame in vehicle order the group keys of the processed frame are
    its vehicles in first-appearance order. *)
Lemma preprocess_data_ordered (df : list drow) :
  ordered_by_vehicle df ->
  match preprocess_data df with
  | Return out => first_appearance_lists df out /\ parallel_lists out
  | Raise e => e = AttributeError /\ keep_two df = []
  end.
Proof.
  intros Hord. pose proof (preprocess_data_lengths df) as Hlen.
  rewrite preprocess_data_unfold, extract_traj_data_cases in *.
  destruct (processed df) as [| r P] eqn:E; [exact Hlen |].
  cbn [bind] in *. rewrite <- E in *.
  assert (Hids : unique (map drow_TaxiID (processed df))
                 = first_appearance_order df).
  { rewrite (processed_keys_ordered Hord), keep_two_keys. apply unique_filter. }
  assert (Hkeys : group_keys drow_TaxiID (processed df)
                  = unique (map drow_TaxiID (processed df))).
  { apply sort_Z_id, unique_sorted.
    rewrite (processed_keys_ordered Hord), keep_two_keys.
    apply StronglySorted_filter, ordered_by_vehicle_strongly, Hord. }
  rewrite Hkeys in *. destruct Hlen as [Hlen2 Hlen].
  repeat split; try assumption; try reflexivity.
  intros v Hv. apply processed_trajectory.
  rewrite Hids in Hv. apply filter_In in Hv. tauto.
Qed.

Lemma keys_filter_sorted {X : Type} (key : X -> Z) (p : X -> bool) (l : list X) :
  StronglySorted Z.le (map key l) ->
  StronglySorted Z.le (map key (filter p l)).
Proof.
  induction l as [| x l IH]; cbn [map filter]; intros H; [constructor |].
  apply StronglySorted_inv in H. destruct H as [H Hx].
  destruct (p x); [| apply IH, H].
  cbn [map]. constructor; [apply IH, H |].
  rewrite Forall_forall in Hx |- *. intros y Hy. apply Hx.
  apply in_map_iff in Hy. destruct Hy as (r & <- & Hr).
  apply filter_In in Hr. apply in_map. tauto.
Qed.

Lemma vehicle_time_sorted_keys (l : list point) :
  StronglySorted vehicle_time_le l -> StronglySorted Z.le (map TaxiID l).
Proof.
  induction 1 as [| x l Hl IH Hx]; cbn [map]; constructor; [exact IH |].
  rewrite Forall_map. eapply Forall_impl; [| exact Hx].
  intros y [Hlt | [Heq _]]; lia.
Qed.

(** The frame the anomaly filter hands over is in vehicle order. *)
Lemma pipeline_frame_ordered (df : list point) (T : R) :
  exists feats : list drow,
    calculate_trajectory_features df = Return feats
    /\ ordered_by_vehicle (filter_invalid_moves feats T).
Proof.
  eexists. split; [apply calculate_returns |].
  rewrite filter_invalid_moves_filter. unfold ordered_by_vehicle.
  apply StronglySorted_Sorted, keys_filter_sorted.
  change drow_TaxiID with (fun r : drow => TaxiID (pt r)).
  rewrite <- (map_map pt TaxiID), features_from_pt.
  apply vehicle_time_sorted_keys, sort_values_sorted.
Qed.

(** The whole pipeline, on every collection of points and every threshold:
    when the builder returns, its two lists are parallel and in the
    first-appearance order of the vehicles that keep two points. *)
Lemma pipeline_lists (df : list point) (T : R) :
  exists feats : list drow,
    calculate_trajectory_features df = Return feats
    /\ match preprocess_data (filter_invalid_moves feats T) with
       | Return out =>
           first_appearance_lists (filter_invalid_moves feats T) out
           /\ parallel_lists out
       | Raise e =>
           e = AttributeError /\ keep_two (filter_invalid_moves feats T) = []
       end.
Proof.
  destruct (pipeline_frame_ordered df T) as (feats & E & Hord).
  exists feats. split; [exact E |]. apply preprocess_data_ordered, Hord.
Qed.

(** C1.  The claim asks that the two lists of the builder be parallel
    on every input; the source says the same of its ID list ("Order matches
    traj_data").  On the frame that lists vehicle 2 and then vehicle 1, each
    in time order, no group is changed by the sort, so [apply] gives the rows
    back in frame order: the ID list is [2; 1] while the trajectories come in
    key order, that of vehicle 1 first.  The lists are equally long and every
    trajectory has two points, but position 0 pairs the ID 2 with the
    trajectory of vehicle 1. *)
Theorem preprocess_data_lists_misaligned :
  preprocess_data frame_2_then_1
  = Return ([traj_vehicle_1; traj_vehicle_2], frame_2_then_1, [2; 1])
  /\ trajectory_of frame_2_then_1 1 = traj_vehicle_1
  /\ trajectory_of frame_2_then_1 2 = traj_vehicle_2
  /\ ~ parallel_lists ([traj_vehicle_1; traj_vehicle_2], frame_2_then_1, [2; 1]).
Proof.
  repeat split; try reflexivity.
  intros (_ & _ & H).
  change (map (trajectory_of frame_2_then_1) [2; 1])
    with [traj_vehicle_2; traj_vehicle_1] in H.
  discriminate H.
Qed.

(** C5, as stated, fails, in two ways.  On the frame that lists vehicle 7
    before vehicle 3 (and one point of vehicle 5), each in time order, the
    first-appearance order of the qualifying vehicles is [7; 3], in the input
    and in the processed frame alike, and so is the ID list; the trajectory
    list is in key order, vehicle 3 first.  On the frame where the points of
    vehicle 7 are out of time order, [apply] concatenates the reordered
    groups in key order: both lists are in ascending ID order, [3; 7], and
    not in the order in which the vehicles first appear in the input. *)
Lemma vehicle_order_not_first_appearance :
  (preprocess_data frame_7_5_3
   = Return ([traj_vehicle_3; traj_vehicle_7], processed frame_7_5_3, [7; 3])
   /\ first_appearance_order frame_7_5_3 = [7; 3]
   /\ unique (map drow_TaxiID (processed frame_7_5_3)) = [7; 3]
   /\ ~ first_appearance_lists frame_7_5_3
          ([traj_vehicle_3; traj_vehicle_7], processed frame_7_5_3, [7; 3]))
  /\ (preprocess_data frame_7_unsorted_3
      = Return ([traj_vehicle_3_short; traj_vehicle_7],
                processed frame_7_unsorted_3, [3; 7])
      /\ first_appearance_order frame_7_unsorted_3 = [7; 3]
      /\ ~ first_appearance_lists frame_7_unsorted_3
             ([traj_vehicle_3_short; traj_vehicle_7],
              processed frame_7_unsorted_3, [3; 7])).
Proof.
  split.
  - repeat split; try reflexivity.
    intros (_ & H & _).
    change (map (trajectory_of (processed frame_7_5_3)) [7; 3])
      with [traj_vehicle_7; traj_vehicle_3] in H.
    discriminate H.
  - repeat split; try reflexivity.
    intros (H & _).
    change (first_appearance_order frame_7_unsorted_3) with [7; 3] in H.
    discriminate H.
Qed.

(** C5, amended.  On every frame in vehicle order, as the feature
    deriver emits it and the anomaly filter keeps it, the builder either
    returns lists whose vehicles are the qualifying vehicles of the frame in
    first-appearance order, the trajectory at a position being made of the
    points of the vehicle at that position, or raises because no vehicle has
    two points. *)
Theorem vehicle_order_on_ordered_input :
  forall df : list drow,
    ordered_by_vehicle df ->
    match preprocess_data df with
    | Return out => first_appearance_lists df out
    | Raise e => e = AttributeError /\ keep_two df = []
    end.
Proof.
  intros df Hord. pose proof (preprocess_data_ordered Hord) as H.
  destruct (preprocess_data df) as [out | e]; [apply H | exact H].
Qed.

Lemma vehicle_order_on_ordered_input_witness :
  ordered_by_vehicle frame_in_vehicle_order
  /\ first_appearance_lists frame_in_vehicle_order
       ([ [ (Some (IZR 0), Some (IZR 0)); (Some (IZR 0), Some (IZR 1)) ];
          [ (Some (IZR 8), Some (IZR 8)); (None, None) ] ],
        processed frame_in_vehicle_order, [1; 4]).
Proof.
  assert (H : ordered_by_vehicle frame_in_vehicle_order).
  { unfold ordered_by_vehicle. cbn. repeat constructor; discriminate. }
  split; [exact H |].
  exact (@vehicle_order_on_ordered_input frame_in_vehicle_order H).
Defined.

End BuilderFacts.

(** ** A run of the whole pipeline *)

Section Scenario.
Local Open Scope R_scope.

(** Along the equator the distance is the difference of the longitudes,
    in radians, times the radius. *)
Lemma hav_m_equator (lon1 lon2 : R) :
  0 <= lon2 - lon1 <= 180 ->
  hav_m lon1 0 lon2 0 = (lon2 - lon1) * (PI / 180) * 6371000.
Proof.
  intros H. unfold hav_m, hav_a, math.radians, EARTH_RADIUS_KM.
  replace ((0 * (PI / 180) - 0 * (PI / 180)) / 2) with 0 by field.
  replace (0 * (PI / 180)) with 0 by ring.
  rewrite sin_0, cos_0.
  set (x := (lon2 * (PI / 180) - lon1 * (PI / 180)) / 2).
  pose proof PI_RGT_0 as Hpi.
  assert (Hx : 0 <= x <= PI / 2) by (unfold x; split; nra).
  replace (0 ^ 2 + 1 * 1 * sin x ^ 2) with (sin x ^ 2) by ring.
  rewrite sqrt_pow2 by (apply sin_ge_0; lra).
  rewrite asin_sin by lra.
  unfold x. field.
Qed.

Lemma derive_value_moving (r p : point) (t0 t : Z) (lon1 lat1 lon2 lat2 : R) :
  DateTime p = Some t0 -> DateTime r = Some t ->
  Longitude p = Some lon1 -> Latitude p = Some lat1 ->
  Longitude r = Some lon2 -> Latitude r = Some lat2 ->
  IZR (t - t0) / 1000000000 > 1 / 1000000 ->
  derive_value (r, Some p)
  = mkDrow r (Some (IZR (t - t0) / 1000000000))
           (Some (hav_m lon1 lat1 lon2 lat2))
           (Some (hav_m lon1 lat1 lon2 lat2
                  / (IZR (t - t0) / 1000000000) * (36 / 10))).
Proof.
  intros Ep Er Elon1 Elat1 Elon2 Elat2 Ht.
  unfold derive_value, diff_total_seconds, shifted.
  rewrite Ep, Er, Elon1, Elat1, Elon2, Elat2. cbn [notna isna negb].
  rewrite <- hav_m_spec. cbn [notna isna negb andb float_gt].
  destruct (Rgt_dec (IZR (t - t0) / 1000000000) (1 / 1000000)); [| contradiction].
  reflexivity.
Qed.

(** The three points are put in time order; the second moves at about
    40 km/h and stays, the third at more than 150 km/h and goes; the
    trajectory of vehicle 1 has the first two points. *)
Lemma scenario_vehicle_A :
  calculate_trajectory_features dfA = Return [dA0; dA1; dA2]
  /\ filter_invalid_moves [dA0; dA1; dA2] max_speed_kmh_default = [dA0; dA1]
  /\ preprocess_data [dA0; dA1]
     = Return ([[(Some 0, Some 0); (Some 0, Some (1 / 1000))]],
               processed [dA0; dA1], [1%Z]).
Proof.
  split; [| split].
  - rewrite calculate_returns.
    change (features_from [] (sort key_leb dfA))
      with [derive_value (pA0, None); derive_value (pA1, Some pA0);
            derive_value (pA2, Some pA1)].
    rewrite (@derive_value_moving pA1 pA0 0 10000000000 0 0 (1 / 1000) 0);
      try reflexivity; [| cbn; lra].
    rewrite (@derive_value_moving pA2 pA1 10000000000 20000000000
                                  (1 / 1000) 0 10 0);
      try reflexivity.
    cbn. lra.
  - rewrite filter_invalid_moves_filter. unfold max_speed_kmh_default.
    pose proof PI_4 as H4. pose proof PI2_3_2 as H3.
    cbn [filter dA0 dA1 dA2 Speed_kmh float_gt].
    rewrite !hav_m_equator by lra. unfold tA.
    destruct (Rgt_dec _ 150) as [H | H]; [exfalso; lra |].
    destruct (Rgt_dec _ 150) as [H' | H']; [| exfalso; lra].
    reflexivity.
  - reflexivity.
Qed.

End Scenario.

(** * Further properties of the code *)

(** ** Distance function *)

Section HaversineMore.
Local Open Scope R_scope.

Lemma hav_m_upper (lon1 lat1 lon2 lat2 : R) :
  hav_m lon1 lat1 lon2 lat2 <= PI * 6371000.
Proof.
  unfold hav_m, EARTH_RADIUS_KM.
  pose proof (asin_bound (R_sqrt.sqrt
    (hav_a (math.radians lon1) (math.radians lat1)
           (math.radians lon2) (math.radians lat2)))) as [_ Hhi].
  nra.
Qed.

(** X1.  On four numbers the distance returned lies between 0 and
    [pi * 6371000] metres, half the circumference of the sphere. *)
Theorem haversine_at_most_half_circumference :
  forall lon1 lat1 lon2 lat2 : R,
  exists d : R,
    haversine (Some lon1) (Some lat1) (Some lon2) (Some lat2) = Return (Some d)
    /\ 0 <= d <= PI * 6371000.
Proof.
  intros lon1 lat1 lon2 lat2. exists (hav_m lon1 lat1 lon2 lat2).
  split; [apply haversine_some |].
  split; [apply hav_m_nonneg | apply hav_m_upper].
Qed.

Lemma sin_sq_shift_PI (x : R) : sin (x + PI) ^ 2 = sin x ^ 2.
Proof. rewrite neg_sin. ring. Qed.

Lemma sin_sq_unshift_PI (x : R) : sin (x - PI) ^ 2 = sin x ^ 2.
Proof.
  rewrite <- (sin_sq_shift_PI (x - PI)).
  replace (x - PI + PI) with x by ring. reflexivity.
Qed.

Lemma hav_a_shift (d lon1 lat1 lon2 lat2 : R) :
  hav_a (math.radians (lon1 + d)) lat1 (math.radians (lon2 + d)) lat2
  = hav_a (math.radians lon1) lat1 (math.radians lon2) lat2.
Proof.
  unfold hav_a, math.radians.
  replace (((lon2 + d) * (PI / 180) - (lon1 + d) * (PI / 180)) / 2)
    with ((lon2 * (PI / 180) - lon1 * (PI / 180)) / 2) by field.
  reflexivity.
Qed.

Lemma hav_a_turn_1 (lon1 lat1 lon2 lat2 : R) :
  hav_a (math.radians (lon1 + 360)) lat1 (math.radians lon2) lat2
  = hav_a (math.radians lon1) lat1 (math.radians lon2) lat2.
Proof.
  unfold hav_a, math.radians.
  replace ((lon2 * (PI / 180) - (lon1 + 360) * (PI / 180)) / 2)
    with ((lon2 * (PI / 180) - lon1 * (PI / 180)) / 2 - PI) by field.
  rewrite sin_sq_unshift_PI. reflexivity.
Qed.

Lemma hav_a_flip (lon1 lat1 lon2 lat2 : R) :
  hav_a (math.radians (- lon1)) (math.radians (- lat1))
        (math.radians (- lon2)) (math.radians (- lat2))
  = hav_a (math.radians lon1) (math.radians lat1)
          (math.radians lon2) (math.radians lat2).
Proof.
  unfold hav_a, math.radians.
  replace ((- lat2 * (PI / 180) - - lat1 * (PI / 180)) / 2)
    with (- ((lat2 * (PI / 180) - lat1 * (PI / 180)) / 2)) by field.
  replace ((- lon2 * (PI / 180) - - lon1 * (PI / 180)) / 2)
    with (- ((lon2 * (PI / 180) - lon1 * (PI / 180)) / 2)) by field.
  replace (- lat1 * (PI / 180)) with (- (lat1 * (PI / 180))) by ring.
  replace (- lat2 * (PI / 180)) with (- (lat2 * (PI / 180))) by ring.
  rewrite !sin_neg, !cos_neg. ring.
Qed.

(** X2.  The distance depends on the longitudes through their difference
    only: it is unchanged when both longitudes are shifted by the same
    amount, when one longitude is moved by a full turn of 360 degrees, and
    when both points are mirrored through the origin of the coordinates. *)
Theorem haversine_invariances :
  forall lon1 lat1 lon2 lat2 : R,
    (forall d : R,
        haversine (Some (lon1 + d)) (Some lat1) (Some (lon2 + d)) (Some lat2)
        = haversine (Some lon1) (Some lat1) (Some lon2) (Some lat2))
    /\ haversine (Some (lon1 + 360)) (Some lat1) (Some lon2) (Some lat2)
       = haversine (Some lon1) (Some lat1) (Some lon2) (Some lat2)
    /\ haversine (Some (- lon1)) (Some (- lat1)) (Some (- lon2)) (Some (- lat2))
       = haversine (Some lon1) (Some lat1) (Some lon2) (Some lat2).
Proof.
  intros lon1 lat1 lon2 lat2. repeat split; intros;
    rewrite !haversine_some; unfold hav_m.
  - rewrite hav_a_shift. reflexivity.
  - rewrite hav_a_turn_1. reflexivity.
  - rewrite hav_a_flip. reflexivity.
Qed.

Lemma asin_sqrt_sin_sq (x : R) :
  - (PI / 2) <= x <= PI / 2 ->
  Ratan.asin (R_sqrt.sqrt (sin x ^ 2)) = Rabs x.
Proof.
  intros [Hlo Hhi]. pose proof PI_RGT_0 as Hpi.
  replace (sin x ^ 2) with (Rsqr (sin x)) by (unfold Rsqr; ring).
  rewrite sqrt_Rsqr_abs.
  destruct (Rle_lt_dec 0 x) as [Hx | Hx].
  - rewrite (Rabs_right x) by lra.
    rewrite Rabs_right by (apply Rle_ge, sin_ge_0; lra).
    apply asin_sin. lra.
  - rewrite (Rabs_left x) by lra.
    assert (Hs : sin x < 0) by (apply sin_lt_0_var; lra).
    rewrite Rabs_left by exact Hs.
    rewrite <- sin_neg. apply asin_sin. lra.
Qed.

Lemma Rabs_half_turn (a b : R) :
  Rabs (b - a) <= 180 ->
  - (PI / 2) <= (b * (PI / 180) - a * (PI / 180)) / 2 <= PI / 2.
Proof.
  intros H. pose proof PI_RGT_0 as Hpi.
  assert (H' : -180 <= b - a <= 180).
  { unfold Rabs in H. destruct (Rcase_abs (b - a)); lra. }
  split; nra.
Qed.

Lemma Rabs_scale (a b : R) :
  2 * Rabs ((b * (PI / 180) - a * (PI / 180)) / 2) * 6371 * 1000
  = Rabs (b - a) * (PI / 180) * 6371000.
Proof.
  pose proof PI_RGT_0 as Hpi.
  replace ((b * (PI / 180) - a * (PI / 180)) / 2)
    with ((b - a) * (PI / 360)) by field.
  rewrite Rabs_mult, (Rabs_right (PI / 360)) by lra. field.
Qed.

(** X3.  Between two points of one meridian no more than 180 degrees of
    latitude apart, and between two points of the equator no more than 180
    degrees of longitude apart, the distance is the length of the arc: the
    difference in degrees times [pi / 180 * 6371000]. *)
Theorem haversine_arc_length :
  forall a b : R,
    Rabs (b - a) <= 180 ->
    (forall lon : R,
        haversine (Some lon) (Some a) (Some lon) (Some b)
        = Return (Some (Rabs (b - a) * (PI / 180) * 6371000)))
    /\ haversine (Some a) (Some 0) (Some b) (Some 0)
       = Return (Some (Rabs (b - a) * (PI / 180) * 6371000)).
Proof.
  intros a b H. pose proof (Rabs_half_turn a b H) as Hx. split; [intros lon |];
    rewrite haversine_some; do 2 f_equal;
    unfold hav_m, hav_a, math.radians, EARTH_RADIUS_KM.
  - replace ((lon * (PI / 180) - lon * (PI / 180)) / 2) with 0 by field.
    rewrite sin_0.
    set (x := (b * (PI / 180) - a * (PI / 180)) / 2) in *.
    replace (sin x ^ 2 + cos (a * (PI / 180)) * cos (b * (PI / 180)) * 0 ^ 2)
      with (sin x ^ 2) by ring.
    rewrite asin_sqrt_sin_sq by exact Hx. apply Rabs_scale.
  - replace ((0 * (PI / 180) - 0 * (PI / 180)) / 2) with 0 by field.
    replace (0 * (PI / 180)) with 0 by ring.
    rewrite sin_0, cos_0.
    set (x := (b * (PI / 180) - a * (PI / 180)) / 2) in *.
    replace (0 ^ 2 + 1 * 1 * sin x ^ 2) with (sin x ^ 2) by ring.
    rewrite asin_sqrt_sin_sq by exact Hx. apply Rabs_scale.
Qed.

Lemma haversine_arc_length_witness :
  Rabs (90 - 0) <= 180
  /\ haversine (Some 0) (Some 0) (Some 90) (Some 0)
     = Return (Some (Rabs (90 - 0) * (PI / 180) * 6371000)).
Proof.
  assert (H : Rabs (90 - 0) <= 180).
  { unfold Rabs. destruct (Rcase_abs (90 - 0)); lra. }
  split; [exact H |].
  exact (proj2 (@haversine_arc_length 0 90 H)).
Defined.

End HaversineMore.

(** ** Feature deriver *)

Section FeatureMore.
Local Open Scope Z_scope.

Lemma spec_distance_range (a b c d : float) (x : R) :
  spec_distance a b c d = Some x -> (0 <= x <= PI * 6371000)%R.
Proof.
  destruct a as [a |], b as [b |], c as [c |], d as [d |]; try discriminate.
  rewrite <- hav_m_spec. intros E. injection E as <-.
  split; [apply hav_m_nonneg | apply hav_m_upper].
Qed.

Lemma derive_value_dist_range (rp : point * option point) (x : R) :
  DistJump_m (derive_value rp) = Some x -> (0 <= x <= PI * 6371000)%R.
Proof.
  destruct rp as [r prev]. unfold derive_value. cbn [DistJump_m].
  destruct (notna (shifted Latitude prev)); [apply spec_distance_range | discriminate].
Qed.

Lemma spec_speed_some (t d : float) (s : R) :
  spec_speed t d = Some s ->
  exists t' d' : R,
    t = Some t' /\ (t' > 1 / 1000000)%R /\ d = Some d'
    /\ s = (d' / t' * (36 / 10))%R.
Proof.
  unfold spec_speed. destruct t as [t' |], d as [d' |]; try discriminate.
  destruct (Rgt_dec t' (1 / 1000000)) as [H | H]; [| discriminate].
  intros E. injection E as <-. exists t', d'. auto.
Qed.

Lemma time_diff_nonneg (p r : point) (t : R) :
  time_le (DateTime p) (DateTime r) ->
  diff_total_seconds (Some p) r = Some t -> (0 <= t)%R.
Proof.
  unfold diff_total_seconds, time_le.
  destruct (DateTime r) as [tr |], (DateTime p) as [tp |]; try discriminate.
  intros H E. injection E as <-.
  assert (H0 : (0 <= IZR (tr - tp))%R) by (apply IZR_le; lia).
  lra.
Qed.

Lemma features_from_time_nonneg (df before : list point) :
  StronglySorted vehicle_time_le df ->
  (forall p r, In p before -> In r df -> vehicle_time_le p r) ->
  Forall (fun d : drow => forall t : R, TimeDiff_s d = Some t -> (0 <= t)%R)
         (features_from before df).
Proof.
  intros Hs. revert before.
  induction Hs as [| r rs Hrs IH Hr]; intros before Hb; [constructor |].
  rewrite features_from_cons. constructor.
  - intros t. unfold derive_value. cbn [TimeDiff_s].
    destruct (find (fun p => TaxiID p =? TaxiID r) before) as [p |] eqn:F;
      [| discriminate].
    apply find_some in F. destruct F as [Hin Hk]. apply Z.eqb_eq in Hk.
    apply time_diff_nonneg.
    destruct (Hb p r Hin (or_introl eq_refl)) as [Hlt | [_ Ht]]; [lia | exact Ht].
  - apply IH. intros p r' [<- | Hp] Hr'.
    + rewrite Forall_forall in Hr. apply Hr, Hr'.
    + apply Hb; [exact Hp | right; exact Hr'].
Qed.

(** X4.  On every row the feature deriver returns, a time difference
    that is a number is not negative (the points of a vehicle are in time
    order), a distance that is a number lies between 0 and half the
    circumference, and a speed that is a number is not negative and was
    computed from a time difference above [1e-6] seconds: the deriver never
    divides by a time difference of zero. *)
Theorem derived_values_in_range :
  forall df : list point,
  exists out : list drow,
    calculate_trajectory_features df = Return out
    /\ Forall (fun r : drow =>
                 (forall t : R, TimeDiff_s r = Some t -> (0 <= t)%R)
                 /\ (forall d : R, DistJump_m r = Some d ->
                                   (0 <= d <= PI * 6371000)%R)
                 /\ (forall s : R, Speed_kmh r = Some s ->
                       (0 <= s)%R
                       /\ exists t d : R,
                            TimeDiff_s r = Some t /\ (t > 1 / 1000000)%R
                            /\ DistJump_m r = Some d
                            /\ s = (d / t * (36 / 10))%R))
              out.
Proof.
  intros df. eexists. split; [apply calculate_returns |].
  pose proof (@features_from_time_nonneg (sort key_leb df) []
                (sort_values_sorted df)
                (fun p r (H : In p []) _ => match H with end)) as Ht.
  rewrite Forall_forall in Ht |- *. intros d Hd.
  split; [apply Ht, Hd |].
  unfold features_from in Hd. apply in_map_iff in Hd.
  destruct Hd as (rp & <- & _).
  split; [intros x; apply derive_value_dist_range |].
  intros s Hs. rewrite derive_value_speed in Hs.
  destruct (spec_speed_some _ _ Hs) as (t & d & Et & Ht' & Ed & ->).
  split; [| exists t, d; auto].
  pose proof (derive_value_dist_range rp Ed) as [Hd0 _].
  assert (0 < / t)%R by (apply Rinv_0_lt_compat; lra).
  unfold Rdiv. nra.
Qed.

Lemma features_from_adjacent (df before : list point) (pre : list drow)
      (p r : drow) (post : list drow) :
  features_from before df = pre ++ p :: r :: post ->
  TaxiID p = TaxiID r ->
  r = derive_value (pt r, Some (pt p)).
Proof.
  revert before pre. induction df as [| x xs IH]; intros before pre E Hk.
  - destruct pre; discriminate.
  - rewrite features_from_cons in E. destruct pre as [| d0 pre].
    + apply cons_inj in E. destruct E as [Ep E].
      destruct xs as [| y ys]; [discriminate |].
      rewrite features_from_cons in E. apply cons_inj in E. destruct E as [Er _].
      assert (Hx : pt p = x) by (rewrite <- Ep; apply pt_derive_value).
      cbn [find] in Er.
      assert (Hy : pt r = y) by (rewrite <- Er; apply pt_derive_value).
      replace (TaxiID x =? TaxiID y) with true in Er
        by (symmetry; apply Z.eqb_eq; rewrite <- Hx, <- Hy; exact Hk).
      rewrite Hx, Hy. symmetry. exact Er.
    + apply cons_inj in E. destruct E as [_ E]. exact (@IH _ _ E Hk).
Qed.

Lemma sorted_boundary (l : list Z) (pre : list Z) (a b : Z) (post : list Z) :
  StronglySorted Z.le l -> l = pre ++ a :: b :: post -> a <> b ->
  forall q, In q (pre ++ [a]) -> q <> b.
Proof.
  intros Hs -> Hab q Hq.
  assert (Hqa : q <= a).
  { apply in_app_or in Hq. destruct Hq as [Hq | [<- | []]]; [| lia].
    clear Hab. induction pre as [| z pre IHp]; [contradiction |].
    cbn [app] in Hs. apply StronglySorted_inv in Hs. destruct Hs as [Hs Hz].
    destruct Hq as [<- | Hq]; [| exact (IHp Hs Hq)].
    rewrite Forall_forall in Hz. apply Hz, in_or_app. right. left. reflexivity. }
  assert (Hle : a <= b).
  { clear Hq Hqa Hab. induction pre as [| z pre IHp].
    - cbn [app] in Hs. apply StronglySorted_inv in Hs. destruct Hs as [_ Ha].
      rewrite Forall_forall in Ha. apply Ha. left. reflexivity.
    - cbn [app] in Hs. apply StronglySorted_inv in Hs. tauto. }
  lia.
Qed.

(** X5.  In the frame the feature deriver returns, the derived columns
    of a row are computed from the row directly before it when that row is
    of the same vehicle: the time difference is the difference of the two
    timestamps in seconds (NaN if one is NaT), the distance is that from the
    coordinates of the row before to those of the row, NaN when the row
    before has no latitude.  When the row before is of another vehicle the
    three derived columns are NaN: a vehicle boundary is never crossed. *)
Theorem derived_from_row_before :
  forall df : list point,
  exists out : list drow,
    calculate_trajectory_features df = Return out
    /\ forall (pre : list drow) (p r : drow) (post : list drow),
         out = pre ++ p :: r :: post ->
         (TaxiID p = TaxiID r ->
          TimeDiff_s r = diff_total_seconds (Some (pt p)) r
          /\ DistJump_m r
             = (if notna (Latitude p)
                then spec_distance (Longitude p) (Latitude p)
                                   (Longitude r) (Latitude r)
                else None))
         /\ (TaxiID p <> TaxiID r ->
             TimeDiff_s r = None /\ DistJump_m r = None /\ Speed_kmh r = None).
Proof.
  intros df. eexists. split; [apply calculate_returns |].
  intros pre p r post E. split.
  - intros Hk. rewrite (@features_from_adjacent _ _ _ _ _ _ E Hk) at 1 3.
    split; reflexivity.
  - intros Hk.
    apply (@features_from_first (sort key_leb df) [] (pre ++ [p]) r post).
    + rewrite <- app_assoc. exact E.
    + intros q [].
    + intros q Hq.
      pose proof (vehicle_time_sorted_keys (sort_values_sorted df)) as Hs.
      rewrite <- (features_from_pt (sort key_leb df) []), map_map in Hs.
      apply (f_equal (map (fun d : drow => TaxiID d))) in E.
      rewrite map_app in E. cbn [map] in E.
      apply (@sorted_boundary _ _ _ _ _ Hs E Hk).
      apply in_app_or in Hq. apply in_or_app.
      destruct Hq as [Hq | [<- | []]];
        [left; apply (in_map (fun d : drow => TaxiID d)), Hq
        | right; left; reflexivity].
Qed.

End FeatureMore.

(** ** Sorting and grouping, continued *)

Section SortMore.
Variable A : Type.
Variable leb : A -> A -> bool.
Hypothesis leb_total : forall x y, leb x y = true \/ leb y x = true.
Hypothesis leb_trans : forall x y z, leb x y = true -> leb y z = true -> leb x z = true.

Lemma insert_below (x : A) (l : list A) :
  Forall (fun z => leb x z = true) l -> insert leb x l = x :: l.
Proof.
  intros H. destruct H as [| y l Hy _]; [reflexivity |].
  cbn [insert]. rewrite Hy. reflexivity.
Qed.

Lemma filter_insert_out (p : A -> bool) (x : A) (l : list A) :
  p x = false -> filter p (insert leb x l) = filter p l.
Proof.
  intros Hx. induction l as [| y l IH]; cbn [insert filter].
  - rewrite Hx. reflexivity.
  - destruct (leb x y); cbn [filter]; [rewrite Hx; reflexivity |].
    rewrite IH. reflexivity.
Qed.

Lemma filter_insert_in (p : A -> bool) (x : A) (l : list A) :
  StronglySorted (fun a b => leb a b = true) l -> p x = true ->
  filter p (insert leb x l) = insert leb x (filter p l).
Proof.
  intros Hs Hx. induction Hs as [| y l Hl IH Hy]; cbn [insert filter].
  - rewrite Hx. reflexivity.
  - destruct (leb x y) eqn:E.
    + cbn [filter]. rewrite Hx. symmetry. apply insert_below.
      destruct (p y).
      * constructor; [exact E |].
        apply Forall_forall. intros z Hz. apply filter_In in Hz.
        rewrite Forall_forall in Hy. eapply leb_trans; [exact E | apply Hy; tauto].
      * apply Forall_forall. intros z Hz. apply filter_In in Hz.
        rewrite Forall_forall in Hy. eapply leb_trans; [exact E | apply Hy; tauto].
    + cbn [filter]. rewrite IH. destruct (p y); [| reflexivity].
      cbn [insert]. rewrite E. reflexivity.
Qed.

(** Taking the rows of a class out of a frame and sorting commute. *)
Lemma filter_sort_comm (p : A -> bool) (l : list A) :
  filter p (sort leb l) = sort leb (filter p l).
Proof.
  induction l as [| x l IH]; [reflexivity |]. cbn [sort filter].
  destruct (p x) eqn:E.
  - rewrite filter_insert_in by (try exact E; apply sort_sorted; assumption).
    rewrite IH. reflexivity.
  - rewrite filter_insert_out by exact E. exact IH.
Qed.
End SortMore.

Section GroupByMore.
Local Open Scope Z_scope.
Variable Row : Type.
Variable key : Row -> Z.

Lemma get_group_other (k : Z) (l : list Row) :
  (forall r, In r l -> key r <> k) -> get_group key k l = [].
Proof.
  intros H. induction l as [| r l IH]; [reflexivity |].
  unfold get_group in *. cbn [filter].
  replace (key r =? k) with false
    by (symmetry; apply Z.eqb_neq, H; left; reflexivity).
  apply IH. intros q Hq. apply H. right. exact Hq.
Qed.

Lemma get_group_same (k : Z) (l : list Row) :
  (forall r, In r l -> key r = k) -> get_group key k l = l.
Proof.
  intros H. apply filter_all. intros r Hr. apply Z.eqb_eq, H, Hr.
Qed.

(** The rows of key [k] in blocks laid out by key are the block of [k]. *)
Lemma get_group_blocks (b : Z -> list Row) (ks : list Z) (k : Z) :
  (forall k' r, In r (b k') -> key r = k') -> NoDup ks ->
  get_group key k (concat (map b ks)) = if existsb (Z.eqb k) ks then b k else [].
Proof.
  intros Hb. induction 1 as [| k0 ks Hk0 Hks IH]; [reflexivity |].
  cbn [map concat existsb]. unfold get_group in *. rewrite filter_app, IH.
  destruct (Z.eqb_spec k k0) as [-> | Hne]; cbn [orb].
  - replace (existsb (Z.eqb k0) ks) with false.
    + rewrite app_nil_r. apply get_group_same, Hb.
    + symmetry. apply not_true_is_false. intros H.
      apply existsb_exists in H. destruct H as (z & Hz & E).
      apply Z.eqb_eq in E. subst z. contradiction.
  - fold (get_group key k (b k0)).
    rewrite get_group_other; [reflexivity |].
    intros r Hr. rewrite (Hb k0 r Hr). congruence.
Qed.

Lemma get_group_concat_groups (l : list Row) (k : Z) :
  get_group key k (concat (groups key l)) = get_group key k l.
Proof.
  unfold groups.
  rewrite (get_group_blocks (fun k' => get_group key k' l));
    [| intros k' r; apply (get_group_key key key) | apply NoDup_group_keys].
  destruct (existsb (Z.eqb k) (group_keys key l)) eqn:E; [reflexivity |].
  symmetry. apply get_group_other. intros r Hr Hk.
  assert (H : existsb (Z.eqb k) (group_keys key l) = true).
  { apply existsb_exists. exists k. split; [| apply Z.eqb_refl].
    apply In_group_keys. rewrite <- Hk. apply in_map, Hr. }
  congruence.
Qed.

(** A frame in key order is determined by its groups. *)
Lemma key_sorted_by_groups (l1 l2 : list Row) :
  StronglySorted Z.le (map key l1) -> StronglySorted Z.le (map key l2) ->
  (forall k, get_group key k l1 = get_group key k l2) ->
  l1 = l2.
Proof.
  revert l2. induction l1 as [| x l1 IH]; intros l2 H1 H2 Hg.
  - destruct l2 as [| y l2]; [reflexivity |].
    specialize (Hg (key y)). unfold get_group in Hg. cbn [filter] in Hg.
    rewrite Z.eqb_refl in Hg. discriminate.
  - destruct l2 as [| y l2].
    + specialize (Hg (key x)). unfold get_group in Hg. cbn [filter] in Hg.
      rewrite Z.eqb_refl in Hg. discriminate.
    + cbn [map] in H1, H2.
      apply StronglySorted_inv in H1. destruct H1 as [H1 Hx].
      apply StronglySorted_inv in H2. destruct H2 as [H2 Hy].
      rewrite Forall_forall in Hx, Hy.
      assert (Hxy : key x = key y).
      { assert (Hyin : In y (x :: l1)).
        { assert (In y (get_group key (key y) (x :: l1))).
          { rewrite Hg. unfold get_group. apply filter_In.
            split; [left; reflexivity | apply Z.eqb_refl]. }
          unfold get_group in H. apply filter_In in H. tauto. }
        assert (Hxin : In x (y :: l2)).
        { assert (In x (get_group key (key x) (y :: l2))).
          { rewrite <- Hg. unfold get_group. apply filter_In.
            split; [left; reflexivity | apply Z.eqb_refl]. }
          unfold get_group in H. apply filter_In in H. tauto. }
        destruct Hyin as [-> | Hyin]; [reflexivity |].
        destruct Hxin as [-> | Hxin]; [reflexivity |].
        pose proof (Hx _ (in_map key _ _ Hyin)).
        pose proof (Hy _ (in_map key _ _ Hxin)). lia. }
      pose proof (Hg (key x)) as Hk. unfold get_group in Hk. cbn [filter] in Hk.
      rewrite <- Hxy, Z.eqb_refl in Hk. apply cons_inj in Hk.
      destruct Hk as [<- Hk]. f_equal. apply IH; [exact H1 | exact H2 |].
      intros k. destruct (Z.eq_dec k (key x)) as [-> | Hne]; [exact Hk |].
      specialize (Hg k). unfold get_group in Hg |- *. cbn [filter] in Hg.
      replace (key x =? k) with false in Hg
        by (symmetry; apply Z.eqb_neq; congruence).
      exact Hg.
Qed.

(** A frame in key order is the concatenation of its groups. *)
Lemma concat_groups_sorted (l : list Row) :
  StronglySorted Z.le (map key l) -> concat (groups key l) = l.
Proof.
  intros H. apply key_sorted_by_groups; [| exact H | apply get_group_concat_groups].
  unfold groups.
  apply (keys_concat_sorted key (fun k => get_group key k l));
    [apply group_keys_sorted | intros k r; apply (get_group_key key key)].
Qed.

Lemma group_keys_Permutation (l1 l2 : list Row) :
  Permutation (map key l1) (map key l2) ->
  group_keys key l1 = group_keys key l2.
Proof.
  intros P. apply sorted_perm_eq; try apply group_keys_sorted.
  apply NoDup_Permutation; try apply NoDup_group_keys.
  intros k. rewrite !In_group_keys. split; apply Permutation_in;
    [exact P | symmetry; exact P].
Qed.

End GroupByMore.

Section FeaturePartition.
Local Open Scope Z_scope.

Lemma find_filter_same {X : Type} (q : X -> bool) (l : list X) :
  find q (filter q l) = find q l.
Proof.
  induction l as [| x l IH]; [reflexivity |]. cbn [filter find].
  destruct (q x) eqn:E; [cbn [find]; rewrite E; reflexivity | exact IH].
Qed.

Lemma features_from_filter (v : Z) (df before : list point) :
  features_from (filter (fun p => TaxiID p =? v) before)
                (filter (fun p => TaxiID p =? v) df)
  = filter (fun d : drow => TaxiID d =? v) (features_from before df).
Proof.
  revert before. induction df as [| r rs IH]; intros before; [reflexivity |].
  rewrite features_from_cons. cbn [filter]. rewrite pt_derive_value.
  specialize (IH (r :: before)). cbn [filter] in IH.
  destruct (TaxiID r =? v) eqn:E.
  - rewrite features_from_cons, IH. apply Z.eqb_eq in E. rewrite E.
    rewrite find_filter_same. reflexivity.
  - exact IH.
Qed.

Lemma features_keys (df : list point) :
  map drow_TaxiID (features_from [] (sort key_leb df))
  = map TaxiID (sort key_leb df).
Proof.
  change drow_TaxiID with (fun r : drow => TaxiID (pt r)).
  rewrite <- (map_map pt TaxiID), features_from_pt. reflexivity.
Qed.

Lemma sorted_unique_Permutation (l1 l2 : list Z) :
  Permutation l1 l2 -> sort Z.leb (unique l1) = sort Z.leb (unique l2).
Proof.
  intros P. apply sorted_perm_eq; try apply sort_Z_sorted.
  rewrite !sort_perm.
  apply NoDup_Permutation; try apply NoDup_unique.
  intros k. rewrite !In_unique. split; apply Permutation_in;
    [exact P | symmetry; exact P].
Qed.

(** X6.  The feature deriver treats every vehicle on its own: run on the
    points of one vehicle alone it returns the rows the run on the whole
    frame returns for that vehicle, and the whole result is these partial
    results put one after the other in ascending vehicle order. *)
Theorem features_are_derived_per_vehicle :
  forall df : list point,
  exists out : list drow,
    calculate_trajectory_features df = Return out
    /\ (forall v : Z,
          calculate_trajectory_features (get_group TaxiID v df)
          = Return (get_group drow_TaxiID v out))
    /\ out = concat (map (fun v => get_group drow_TaxiID v out)
                         (group_keys TaxiID df)).
Proof.
  intros df. eexists. split; [apply calculate_returns |]. split.
  - intros v. rewrite calculate_returns. f_equal.
    unfold get_group.
    rewrite <- (@filter_sort_comm _ key_leb key_leb_total key_leb_trans).
    apply (features_from_filter v (sort key_leb df) []).
  - set (out := features_from [] (sort key_leb df)).
    assert (Hs : StronglySorted Z.le (map drow_TaxiID out)).
    { unfold out. rewrite features_keys.
      apply vehicle_time_sorted_keys, sort_values_sorted. }
    rewrite <- (concat_groups_sorted drow_TaxiID out Hs) at 1.
    unfold groups. f_equal. f_equal. unfold group_keys.
    apply sorted_unique_Permutation. unfold out. rewrite features_keys.
    apply Permutation_map, sort_perm.
Qed.

End FeaturePartition.

Section FeatureOrder.
Local Open Scope Z_scope.

Lemma sorted_perm_unique {X : Type} (le : X -> X -> Prop) (l1 l2 : list X) :
  (forall x y, In x l1 -> In y l1 -> le x y -> le y x -> x = y) ->
  StronglySorted le l1 -> StronglySorted le l2 -> Permutation l1 l2 ->
  l1 = l2.
Proof.
  intros Ha H1. revert l2 Ha.
  induction H1 as [| x l1 Hl1 IH Hx]; intros l2 Ha H2 P.
  - apply Permutation_nil in P. auto.
  - destruct H2 as [| y l2 Hl2 Hy].
    + apply Permutation_sym, Permutation_nil in P. discriminate.
    + assert (x = y).
      { rewrite Forall_forall in Hx, Hy.
        assert (Hxy : In x (y :: l2))
          by (eapply Permutation_in; [exact P | left; reflexivity]).
        assert (Hyx : In y (x :: l1))
          by (eapply Permutation_in; [symmetry; exact P | left; reflexivity]).
        destruct Hxy as [-> | Hxy]; [reflexivity |].
        destruct Hyx as [-> | Hyx]; [reflexivity |].
        apply Ha; [left; reflexivity | right; exact Hyx
                  | apply Hx, Hyx | apply Hy, Hxy]. }
      subst y. f_equal. apply IH; [| exact Hl2 |].
      * intros a b Hin Hb. apply Ha; right; assumption.
      * eapply Permutation_cons_inv. exact P.
Qed.

Lemma NoDup_map_inj {X Y : Type} (f : X -> Y) (l : list X) (x y : X) :
  NoDup (map f l) -> In x l -> In y l -> f x = f y -> x = y.
Proof.
  induction l as [| z l IH]; cbn [map]; intros Hn Hx Hy E; [contradiction |].
  apply NoDup_cons_iff in Hn. destruct Hn as [Hz Hn].
  destruct Hx as [-> | Hx], Hy as [-> | Hy]; auto.
  - exfalso. apply Hz. rewrite E. apply in_map, Hy.
  - exfalso. apply Hz. rewrite <- E. apply in_map, Hx.
Qed.

Lemma time_le_antisym (a b : option Z) : time_le a b -> time_le b a -> a = b.
Proof.
  destruct a, b; cbn; intros H1 H2; try contradiction; try reflexivity.
  f_equal. lia.
Qed.

Lemma vehicle_time_le_antisym (x y : point) :
  vehicle_time_le x y -> vehicle_time_le y x -> vehicle_time x = vehicle_time y.
Proof.
  unfold vehicle_time_le, vehicle_time.
  intros [H1 | [H1 H1']] [H2 | [H2 H2']]; try lia.
  rewrite H1, (time_le_antisym _ _ H1' H2'). reflexivity.
Qed.

(** X7.  When no two points of the frame have the same vehicle and the
    same timestamp, the feature deriver does not depend on the order of the
    rows of its input: two frames with the same rows give the same result. *)
Theorem features_do_not_depend_on_row_order :
  forall df df' : list point,
    Permutation df df' ->
    NoDup (map vehicle_time df) ->
    calculate_trajectory_features df = calculate_trajectory_features df'.
Proof.
  intros df df' P Hn. rewrite !calculate_returns. do 2 f_equal.
  apply (sorted_perm_unique (le := vehicle_time_le));
    try apply sort_values_sorted.
  - intros x y Hx Hy Hxy Hyx.
    apply (NoDup_map_inj vehicle_time df);
      [exact Hn | | | apply vehicle_time_le_antisym; assumption];
      eapply Permutation_in; try eassumption; apply sort_perm.
  - rewrite !sort_perm. exact P.
Qed.

Lemma features_do_not_depend_on_row_order_witness :
  Permutation [pA2; pA0; pA1] [pA0; pA1; pA2]
  /\ NoDup (map vehicle_time [pA2; pA0; pA1])
  /\ calculate_trajectory_features [pA2; pA0; pA1]
     = calculate_trajectory_features [pA0; pA1; pA2].
Proof.
  assert (P : Permutation [pA2; pA0; pA1] [pA0; pA1; pA2]).
  { apply (Permutation_cons_app [pA0; pA1] [] pA2). reflexivity. }
  assert (Hn : NoDup (map vehicle_time [pA2; pA0; pA1])).
  { cbn. repeat constructor; cbn; intuition discriminate. }
  split; [exact P |]. split; [exact Hn |].
  exact (@features_do_not_depend_on_row_order _ _ P Hn).
Defined.

End FeatureOrder.

(** ** Anomaly filter *)

Section FilterMore.
Local Open Scope R_scope.

Lemma filter_split_length {X : Type} (p : X -> bool) (l : list X) :
  (length (filter (fun x => negb (p x)) l) + length (filter p l) = length l)%nat.
Proof.
  induction l as [| x l IH]; [reflexivity |]. cbn [filter].
  destruct (p x); cbn [negb length]; lia.
Qed.

Lemma filter_none_all {X : Type} (p : X -> bool) (l : list X) :
  filter p l = [] -> filter (fun x => negb (p x)) l = l.
Proof.
  intros H. apply filter_all. intros x Hx.
  destruct (p x) eqn:E; [| reflexivity].
  assert (Hin : In x (filter p l)) by (apply filter_In; auto).
  rewrite H in Hin. contradiction.
Qed.

(** X8.  What the anomaly filter reports through [st.write] is the
    number of points it removed, which is the number of anomalous points of
    its input, and it reports only when that number is positive; when it
    reports nothing the frame it returns is its input. *)
Theorem filter_invalid_moves_reports_removed_count :
  forall (df : list drow) (T : R),
    fst (filter_invalid_moves_report df T) = filter_invalid_moves df T
    /\ match snd (filter_invalid_moves_report df T) with
       | Some n =>
           (0 < n)%nat
           /\ n = length (filter (fun r => float_gt (Speed_kmh r) T) df)
           /\ (length (filter_invalid_moves df T) + n = length df)%nat
       | None =>
           filter_invalid_moves df T = df
           /\ Forall (fun r => ~ anomalous T r) df
       end.
Proof.
  intros df T. split; [reflexivity |].
  pose proof (filter_invalid_moves_filter df T) as Hf.
  rewrite Hf.
  unfold filter_invalid_moves, filter_invalid_moves_report in Hf.
  unfold filter_invalid_moves_report. cbn [fst snd] in *. rewrite Hf.
  pose proof (filter_split_length (fun r => float_gt (Speed_kmh r) T) df) as Hl.
  set (kept := filter (fun r => negb (float_gt (Speed_kmh r) T)) df) in *.
  set (gone := filter (fun r => float_gt (Speed_kmh r) T) df) in *.
  replace (length df - length kept)%nat with (length gone) by lia.
  destruct (0 <? length gone)%nat eqn:E.
  - apply Nat.ltb_lt in E. repeat split; [exact E | exact Hl].
  - apply Nat.ltb_ge in E.
    assert (Hg : gone = []) by (destruct gone; [reflexivity | cbn in E; lia]).
    split; [apply filter_none_all, Hg |].
    apply Forall_forall. intros r Hr Ha. apply float_gt_anomalous in Ha.
    assert (Hin : In r gone) by (apply filter_In; auto).
    rewrite Hg in Hin. exact Hin.
Qed.

Lemma float_gt_Rmin (s : float) (T1 T2 : R) :
  float_gt s (Rmin T1 T2) = float_gt s T1 || float_gt s T2.
Proof.
  destruct s as [x |]; [| reflexivity]. unfold float_gt.
  destruct (Rgt_dec x (Rmin T1 T2)) as [H | H],
           (Rgt_dec x T1) as [H1 | H1], (Rgt_dec x T2) as [H2 | H2];
    try reflexivity; exfalso;
    unfold Rmin in H; destruct (Rle_dec T1 T2); lra.
Qed.

Lemma filter_filter_and {X : Type} (p q : X -> bool) (l : list X) :
  filter q (filter p l) = filter (fun x => p x && q x) l.
Proof.
  induction l as [| x l IH]; [reflexivity |]. cbn [filter].
  destruct (p x); cbn [filter andb]; rewrite IH; reflexivity.
Qed.

(** X9.  Filtering at one threshold and then at another is filtering
    once at the smaller of the two; in particular the filter is idempotent,
    the order of two filterings does not matter, and a point retained at a
    threshold is retained at every higher one. *)
Theorem filter_invalid_moves_composes :
  forall (df : list drow) (T1 T2 : R),
    filter_invalid_moves (filter_invalid_moves df T1) T2
    = filter_invalid_moves df (Rmin T1 T2)
    /\ filter_invalid_moves (filter_invalid_moves df T1) T1
       = filter_invalid_moves df T1
    /\ filter_invalid_moves (filter_invalid_moves df T1) T2
       = filter_invalid_moves (filter_invalid_moves df T2) T1
    /\ (T1 <= T2 ->
        forall r : drow,
          In r (filter_invalid_moves df T1) -> In r (filter_invalid_moves df T2)).
Proof.
  intros df T1 T2.
  assert (Hc : forall A B,
             filter_invalid_moves (filter_invalid_moves df A) B
             = filter_invalid_moves df (Rmin A B)).
  { intros A B. rewrite !filter_invalid_moves_filter, filter_filter_and.
    apply filter_ext. intros r. rewrite float_gt_Rmin, negb_orb. reflexivity. }
  split; [apply Hc |]. split; [| split].
  - rewrite Hc. unfold Rmin. destruct (Rle_dec T1 T1); reflexivity.
  - rewrite !Hc, Rmin_comm. reflexivity.
  - intros Hle r. rewrite !filter_invalid_moves_filter, !filter_In.
    intros [Hin Hr]. split; [exact Hin |].
    rewrite negb_true_iff in *. unfold float_gt in *.
    destruct (Speed_kmh r) as [s |]; [| reflexivity].
    destruct (Rgt_dec s T1); [discriminate |].
    destruct (Rgt_dec s T2); [lra | reflexivity].
Qed.

End FilterMore.

(** ** Trajectory builder *)

Section BuilderMore.
Local Open Scope Z_scope.

(** X10.  Through the whole pipeline, for every collection of points and
    every threshold: the frame the anomaly filter hands to the builder is in
    vehicle order, and the builder either returns parallel lists (the
    trajectory at a position is that of the vehicle at the same position of
    the ID list) or raises because no vehicle has two points left. *)
Theorem pipeline_lists_are_parallel :
  forall (df : list point) (T : R),
  exists feats : list drow,
    calculate_trajectory_features df = Return feats
    /\ ordered_by_vehicle (filter_invalid_moves feats T)
    /\ match preprocess_data (filter_invalid_moves feats T) with
       | Return out => parallel_lists out
       | Raise e =>
           e = AttributeError /\ keep_two (filter_invalid_moves feats T) = []
       end.
Proof.
  intros df T. destruct (pipeline_frame_ordered df T) as (feats & E & Hord).
  exists feats. split; [exact E |]. split; [exact Hord |].
  pose proof (preprocess_data_ordered Hord) as H.
  destruct (preprocess_data (filter_invalid_moves feats T)) as [out | e];
    [apply H | exact H].
Qed.

Lemma sorted_NoDup_lt (l : list Z) :
  StronglySorted Z.le l -> NoDup l -> StronglySorted Z.lt l.
Proof.
  induction 1 as [| x l Hl IH Hx]; intros Hn; constructor.
  - apply IH. apply NoDup_cons_iff in Hn. tauto.
  - apply NoDup_cons_iff in Hn. destruct Hn as [Hn _].
    rewrite Forall_forall in Hx |- *. intros y Hy.
    specialize (Hx y Hy). assert (x <> y) by congruence. lia.
Qed.

Lemma qualifies_In (df : list drow) (v : Z) :
  qualifies df v = true -> In v (map drow_TaxiID df).
Proof.
  unfold qualifies. intros H. apply Nat.leb_le in H.
  destruct (get_group drow_TaxiID v df) as [| r g] eqn:E; [cbn in H; lia |].
  assert (Hr : In r (get_group drow_TaxiID v df)) by (rewrite E; left; reflexivity).
  unfold get_group in Hr. apply filter_In in Hr. destruct Hr as [Hr Hk].
  apply Z.eqb_eq in Hk. rewrite <- Hk. apply in_map, Hr.
Qed.

Lemma processed_vehicles (df : list drow) (v : Z) :
  In v (map drow_TaxiID (processed df)) <-> qualifies df v = true.
Proof.
  split.
  - intros H. eapply Permutation_in in H; [| apply processed_keys_perm].
    rewrite keep_two_keys in H. apply filter_In in H. tauto.
  - intros H. eapply Permutation_in; [symmetry; apply processed_keys_perm |].
    rewrite keep_two_keys. apply filter_In. split; [apply qualifies_In, H | exact H].
Qed.

(** X11.  Whatever the order of the input, when the builder returns:
    the trajectory list is in strictly ascending order of vehicle ID, the
    ID list holds the same vehicles, each once, and these are exactly the
    vehicles with at least two points in the input. *)
Theorem builder_vehicles :
  forall df : list drow,
    match preprocess_data df with
    | Return (traj_data, processed_df, traj_ids) =>
        exists ks : list Z,
          StronglySorted Z.lt ks
          /\ traj_data = map (trajectory_of processed_df) ks
          /\ Permutation traj_ids ks
          /\ NoDup traj_ids
          /\ (forall v : Z, In v traj_ids <-> qualifies df v = true)
    | Raise _ => True
    end.
Proof.
  intros df. rewrite preprocess_data_unfold, extract_traj_data_cases.
  destruct (processed df) as [| r P] eqn:E; [exact I |].
  cbn [bind]. rewrite <- E.
  exists (group_keys drow_TaxiID (processed df)). repeat split.
  - apply sorted_NoDup_lt; [apply group_keys_sorted | apply NoDup_group_keys].
  - symmetry. apply group_keys_perm.
  - apply NoDup_unique.
  - intros H. apply (proj1 (In_unique _ _)) in H. apply processed_vehicles, H.
  - intros H. apply (proj2 (In_unique _ _)), processed_vehicles, H.
Qed.

Lemma keep_two_nil (df : list drow) :
  keep_two df = [] <-> (forall r, In r df -> qualifies df (TaxiID r) = false).
Proof.
  unfold keep_two, groupby_filter. split.
  - intros H r Hr.
    destruct (qualifies df (TaxiID r)) eqn:Q; [| reflexivity].
    assert (Hin : In r (filter (fun r0 : drow =>
               (2 <=? length (get_group drow_TaxiID (drow_TaxiID r0) df))%nat) df))
      by (apply filter_In; split; [exact Hr | exact Q]).
    rewrite H in Hin. contradiction.
  - intros H. destruct (filter _ df) as [| r l] eqn:E; [reflexivity |].
    assert (Hin : In r (r :: l)) by (left; reflexivity).
    rewrite <- E in Hin. apply filter_In in Hin. destruct Hin as [Hin Hq].
    specialize (H r Hin). unfold qualifies in H.
    change (drow_TaxiID r) with (TaxiID r) in Hq. rewrite H in Hq. discriminate.
Qed.

(** X12.  The builder raises exactly when no vehicle of its input has two
    points, in particular on the empty frame, and the only exception it
    raises is the [AttributeError] of the missing [tolist]. *)
Theorem builder_raises_iff_no_vehicle_qualifies :
  forall df : list drow,
    (preprocess_data df = Raise AttributeError
     <-> forall r : drow, In r df -> qualifies df (TaxiID r) = false)
    /\ (forall e : exn, preprocess_data df = Raise e -> e = AttributeError)
    /\ preprocess_data [] = Raise AttributeError.
Proof.
  intros df. split; [| split; [| reflexivity]].
  - rewrite <- keep_two_nil. split.
    + intros H. pose proof (preprocess_data_lengths df) as L.
      rewrite H in L. tauto.
    + intros H. rewrite preprocess_data_unfold, extract_traj_data_cases.
      assert (Hp : processed df = []).
      { pose proof (processed_keys_perm df) as P. rewrite H in P.
        apply Permutation_sym, Permutation_nil in P.
        destruct (processed df); [reflexivity | discriminate]. }
      rewrite Hp. reflexivity.
  - intros e H. pose proof (preprocess_data_lengths df) as L.
    rewrite H in L. tauto.
Qed.

Lemma concat_map_length {X Y : Type} (f : list X -> list Y) (gs : list (list X)) :
  (forall g, length (f g) = length g) ->
  length (concat (map f gs)) = length (concat gs).
Proof.
  intros H. induction gs as [| g gs IH]; [reflexivity |].
  cbn [map concat]. rewrite !length_app, H, IH. reflexivity.
Qed.

(** X13.  When the builder returns, every trajectory has at least two
    points, there are as many trajectories as IDs, and the points of all the
    trajectories together are as many as the rows of the processed frame,
    which are as many as the input has rows of vehicles with two points. *)
Theorem builder_counts :
  forall df : list drow,
    match preprocess_data df with
    | Return (traj_data, processed_df, traj_ids) =>
        Forall (fun t => (2 <= length t)%nat) traj_data
        /\ length traj_data = length traj_ids
        /\ length (concat traj_data) = length processed_df
        /\ length processed_df
           = length (filter (fun r : drow => qualifies df (TaxiID r)) df)
    | Raise _ => True
    end.
Proof.
  intros df. pose proof (preprocess_data_lengths df) as L.
  rewrite preprocess_data_unfold, extract_traj_data_cases in *.
  destruct (processed df) as [| r P] eqn:E; [exact I |].
  cbn [bind] in *. rewrite <- E in *. destruct L as [L1 L2].
  repeat split; try assumption.
  - rewrite <- (map_map (fun k => get_group drow_TaxiID k (processed df))
                        values_Latitude_Longitude).
    fold (groups drow_TaxiID (processed df)).
    rewrite (concat_map_length values_Latitude_Longitude)
      by (intros g; apply length_map).
    apply Permutation_length, groups_perm.
  - rewrite <- (length_map drow_TaxiID (processed df)).
    rewrite (Permutation_length (processed_keys_perm df)), length_map.
    reflexivity.
Qed.

End BuilderMore.

Section BuilderTimeOrder.
Local Open Scope Z_scope.

Let DT (r : drow) : option Z := DateTime r.
Let DTleb (r s : drow) : bool := DateTime_leb (DateTime r) (DateTime s).

Lemma list_eqb_eq (l1 l2 : list Z) : list_eqb l1 l2 = true <-> l1 = l2.
Proof.
  revert l2. induction l1 as [| x l1 IH]; intros [| y l2]; cbn [list_eqb];
    try (split; [reflexivity || discriminate | reflexivity || discriminate]).
  rewrite andb_true_iff, Z.eqb_eq, IH. split.
  - intros [-> ->]. reflexivity.
  - intros E. injection E. auto.
Qed.

Lemma forallb2_map_In {X : Type} (p : X -> X -> bool) (f : X -> X) (l : list X) :
  forallb2 p (map f l) l = true <-> (forall x, In x l -> p (f x) x = true).
Proof.
  induction l as [| x l IH]; cbn [map forallb2].
  - split; [intros _ x [] | reflexivity].
  - rewrite andb_true_iff, IH. split.
    + intros [Hx Hl] y [<- | Hy]; auto.
    + intros H. split; [apply H; left; reflexivity |].
      intros y Hy. apply H. right. exact Hy.
Qed.

Lemma perm_same_labels {X : Type} (f : X -> Z) (l l' : list X) :
  Permutation l l' -> map f l = map f l' -> NoDup (map f l) -> l = l'.
Proof.
  revert l'. induction l as [| x l IH]; intros l' P E Hn.
  - apply Permutation_nil in P. auto.
  - destruct l' as [| y l']; [discriminate |]. cbn [map] in E, Hn.
    apply cons_inj in E. destruct E as [Exy E].
    apply NoDup_cons_iff in Hn. destruct Hn as [Hx Hn].
    assert (x = y).
    { assert (Hin : In x (y :: l'))
        by (eapply Permutation_in; [exact P | left; reflexivity]).
      destruct Hin as [-> | Hin]; [reflexivity |].
      exfalso. apply Hx. rewrite E. apply in_map, Hin. }
    subst y. f_equal. apply IH; [| exact E | exact Hn].
    eapply Permutation_cons_inv. exact P.
Qed.

Lemma NoDup_map_filter {X : Type} (f : X -> Z) (p : X -> bool) (l : list X) :
  NoDup (map f l) -> NoDup (map f (filter p l)).
Proof.
  induction l as [| x l IH]; cbn [map filter]; intros Hn; [constructor |].
  apply NoDup_cons_iff in Hn. destruct Hn as [Hx Hn].
  destruct (p x); [| apply IH, Hn].
  cbn [map]. constructor; [| apply IH, Hn].
  intros H. apply Hx. apply in_map_iff in H. destruct H as (y & <- & Hy).
  apply filter_In in Hy. apply in_map. tauto.
Qed.

Lemma DTleb_total (r s : drow) : DTleb r s = true \/ DTleb s r = true.
Proof. apply DateTime_leb_total. Qed.

Lemma DTleb_trans (r s u : drow) :
  DTleb r s = true -> DTleb s u = true -> DTleb r u = true.
Proof. apply DateTime_leb_trans. Qed.

Lemma sort_values_DateTime_sorted (g : list drow) :
  StronglySorted (fun r s => DTleb r s = true) (sort_values_DateTime g).
Proof. apply (sort_sorted DTleb DTleb_total DTleb_trans). Qed.

Lemma sort_values_DateTime_keys (k : Z) (df : list drow) (r : drow) :
  In r (sort_values_DateTime (get_group drow_TaxiID k df)) -> drow_TaxiID r = k.
Proof.
  intros H. eapply (get_group_key drow_TaxiID drow_TaxiID), Permutation_in;
    [apply sort_values_DateTime_perm | exact H].
Qed.

(** With unique labels every group of the frame [apply] returns is in
    time order. *)
Lemma apply_groups_sorted (F : list drow) (v : Z) :
  NoDup (map drow_idx F) ->
  StronglySorted (fun r s => DTleb r s = true)
    (get_group drow_TaxiID v
       (groupby_apply drow_TaxiID drow_idx sort_values_DateTime F)).
Proof.
  intros Hn. unfold groupby_apply.
  destruct (negb _) eqn:M.
  - unfold groups. rewrite map_map.
    rewrite (get_group_blocks drow_TaxiID
               (fun k => sort_values_DateTime (get_group drow_TaxiID k F)));
      [| intros k r; apply sort_values_DateTime_keys | apply NoDup_group_keys].
    destruct (existsb _ _); [apply sort_values_DateTime_sorted | constructor].
  - apply negb_false_iff in M. unfold groups in M. rewrite map_map in M.
    destruct (in_dec Z.eq_dec v (group_keys drow_TaxiID F)) as [Hv | Hv].
    + assert (E : sort_values_DateTime (get_group drow_TaxiID v F)
                  = get_group drow_TaxiID v F).
      { apply (perm_same_labels drow_idx).
        - apply sort_values_DateTime_perm.
        - apply list_eqb_eq.
          revert M Hv. generalize (group_keys drow_TaxiID F) as ks.
          induction ks as [| k ks IHk]; intros M Hv; [destruct Hv |].
          cbn [map forallb2] in M. apply andb_true_iff in M.
          destruct M as [M1 M2].
          destruct Hv as [<- | Hv]; [exact M1 | exact (IHk M2 Hv)].
        - eapply Permutation_NoDup;
            [apply Permutation_map; symmetry; apply sort_values_DateTime_perm |].
          apply NoDup_map_filter, Hn. }
      rewrite <- E. apply sort_values_DateTime_sorted.
    + rewrite get_group_other; [constructor |].
      intros r Hr Hk. apply Hv, In_group_keys. rewrite <- Hk. apply in_map, Hr.
Qed.

Lemma reset_index_from_group_DateTime (i : Z) (df : list drow) (v : Z) :
  map DT (get_group drow_TaxiID v (reset_index_from i df))
  = map DT (get_group drow_TaxiID v df).
Proof.
  unfold get_group. revert i.
  induction df as [| r df IH]; intros i; [reflexivity |].
  cbn [reset_index_from filter].
  change (drow_TaxiID (set_idx i r)) with (drow_TaxiID r).
  destruct (drow_TaxiID r =? v); cbn [map]; rewrite IH; reflexivity.
Qed.

Lemma sorted_DateTime_iff (l : list drow) :
  StronglySorted (fun r s => DTleb r s = true) l
  <-> StronglySorted time_le (map DT l).
Proof.
  induction l as [| x l IH]; cbn [map]; [split; constructor |].
  split; intros H; apply StronglySorted_inv in H; destruct H as [H Hx];
    constructor; try (apply IH; exact H).
  - rewrite Forall_map. eapply Forall_impl; [| exact Hx].
    intros y Hy. apply DateTime_leb_spec, Hy.
  - rewrite Forall_map in Hx. eapply Forall_impl; [| exact Hx].
    intros y Hy. apply DateTime_leb_spec, Hy.
Qed.

Lemma processed_groups_sorted (df : list drow) (v : Z) :
  NoDup (map drow_idx df) ->
  StronglySorted time_le (map DT (get_group drow_TaxiID v (processed df))).
Proof.
  intros Hn. unfold processed, reset_index.
  rewrite reset_index_from_group_DateTime. apply sorted_DateTime_iff.
  apply apply_groups_sorted. unfold keep_two, groupby_filter.
  apply NoDup_map_filter, Hn.
Qed.

(** X14.  When the index labels of the input are unique, every
    trajectory of the list the builder returns is the list of the
    coordinates of the rows that the processed frame has for one vehicle of
    the ID list, in the order of the frame, and the rows of every vehicle in
    the processed frame are in ascending order of timestamp, the rows
    without timestamp last: the points of every trajectory are in time
    order. *)
Theorem builder_trajectories_in_time_order :
  forall df : list drow,
    NoDup (map drow_idx df) ->
    match preprocess_data df with
    | Return (traj_data, processed_df, traj_ids) =>
        exists ks : list Z,
          Permutation ks traj_ids
          /\ traj_data
             = map (fun v : Z =>
                      map (fun r : drow => (Latitude r, Longitude r))
                          (get_group drow_TaxiID v processed_df))
                   ks
          /\ (forall v : Z,
                StronglySorted time_le
                  (map (fun r : drow => DateTime r)
                       (get_group drow_TaxiID v processed_df)))
    | Raise _ => True
    end.
Proof.
  intros df Hn. rewrite preprocess_data_unfold, extract_traj_data_cases.
  destruct (processed df) as [| r P] eqn:E; [exact I |].
  cbn [bind]. rewrite <- E.
  exists (group_keys drow_TaxiID (processed df)).
  split; [apply group_keys_perm |]. split; [reflexivity |].
  intros v. apply (processed_groups_sorted df v Hn).
Qed.

Lemma builder_trajectories_in_time_order_witness :
  NoDup (map drow_idx frame_7_unsorted_3)
  /\ exists ks : list Z,
       Permutation ks [3; 7]%Z
       /\ [traj_vehicle_3_short; traj_vehicle_7]
          = map (fun v : Z =>
                   map (fun r : drow => (Latitude r, Longitude r))
                       (get_group drow_TaxiID v (processed frame_7_unsorted_3)))
                ks
       /\ (forall v : Z,
             StronglySorted time_le
               (map (fun r : drow => DateTime r)
                    (get_group drow_TaxiID v (processed frame_7_unsorted_3)))).
Proof.
  assert (Hn : NoDup (map drow_idx frame_7_unsorted_3)).
  { cbn. repeat constructor; cbn; intuition discriminate. }
  split; [exact Hn |].
  exact (@builder_trajectories_in_time_order frame_7_unsorted_3 Hn).
Defined.

Lemma reset_index_from_idem (i : Z) (df : list drow) :
  reset_index_from i (reset_index_from i df) = reset_index_from i df.
Proof.
  revert i. induction df as [| r df IH]; intros i; [reflexivity |].
  cbn [reset_index_from]. rewrite IH. reflexivity.
Qed.

Lemma processed_group_length (df : list drow) (v : Z) :
  In v (map drow_TaxiID (processed df)) ->
  (2 <= length (get_group drow_TaxiID v (processed df)))%nat.
Proof.
  intros H. apply processed_vehicles in H.
  rewrite <- trajectory_length,
    (Permutation_length (processed_trajectory df v H)), trajectory_length.
  apply Nat.leb_le, H.
Qed.

Lemma keep_two_processed (df : list drow) :
  keep_two (processed df) = processed df.
Proof.
  unfold keep_two, groupby_filter. apply filter_all. intros r Hr.
  apply Nat.leb_le, processed_group_length, in_map, Hr.
Qed.

Lemma groupby_apply_fixed (F : list drow) :
  (forall v, sort_values_DateTime (get_group drow_TaxiID v F)
             = get_group drow_TaxiID v F) ->
  groupby_apply drow_TaxiID drow_idx sort_values_DateTime F = F.
Proof.
  intros H. unfold groupby_apply.
  replace (forallb2 (is_indexed_like drow_idx)
             (map sort_values_DateTime (groups drow_TaxiID F))
             (groups drow_TaxiID F)) with true; [reflexivity |].
  symmetry. apply forallb2_map_In. intros g Hg.
  unfold groups in Hg. apply in_map_iff in Hg. destruct Hg as (v & <- & _).
  rewrite H. apply list_eqb_eq. reflexivity.
Qed.

Lemma processed_idem (df : list drow) :
  NoDup (map drow_idx df) -> processed (processed df) = processed df.
Proof.
  intros Hn. unfold processed at 1. rewrite keep_two_processed.
  rewrite groupby_apply_fixed.
  - unfold processed, reset_index. apply reset_index_from_idem.
  - intros v. apply sort_sorted_id, StronglySorted_Sorted.
    apply sorted_DateTime_iff, processed_groups_sorted, Hn.
Qed.

(** X15.  When the index labels of the input are unique and no two of
    its rows have the same vehicle and the same timestamp (so that the order
    in which the source's sort leaves equal timestamps plays no part), the
    builder is idempotent on its own processed frame: run on the frame it
    returns, it returns the same trajectories, the same frame and the same
    IDs. *)
Theorem builder_idempotent_on_processed_frame :
  forall df : list drow,
    NoDup (map drow_idx df) ->
    NoDup (map (fun r : drow => vehicle_time r) df) ->
    match preprocess_data df with
    | Return (traj_data, processed_df, traj_ids) =>
        preprocess_data processed_df
        = Return (traj_data, processed_df, traj_ids)
    | Raise _ => True
    end.
Proof.
  intros df Hn _.
  rewrite (preprocess_data_unfold df), extract_traj_data_cases.
  destruct (processed df) as [| r P] eqn:E; [exact I |].
  cbn [bind]. rewrite <- E.
  rewrite preprocess_data_unfold, (processed_idem df Hn), extract_traj_data_cases.
  rewrite E at 1. reflexivity.
Qed.

Lemma builder_idempotent_on_processed_frame_witness :
  NoDup (map drow_idx frame_7_5_3)
  /\ NoDup (map (fun r : drow => vehicle_time r) frame_7_5_3)
  /\ preprocess_data (processed frame_7_5_3)
     = Return ([traj_vehicle_3; traj_vehicle_7], processed frame_7_5_3, [7; 3]).
Proof.
  assert (Hn : NoDup (map drow_idx frame_7_5_3)).
  { cbn. repeat constructor; cbn; intuition discriminate. }
  assert (Hk : NoDup (map (fun r : drow => vehicle_time r) frame_7_5_3)).
  { cbn. repeat constructor; cbn; intuition discriminate. }
  split; [exact Hn |]. split; [exact Hk |].
  exact (@builder_idempotent_on_processed_frame frame_7_5_3 Hn Hk).
Defined.

Lemma reset_index_from_labels (i : Z) (df : list drow) :
  map drow_idx (reset_index_from i df)
  = map (fun k => i + Z.of_nat k) (seq 0 (length df)).
Proof.
  revert i. induction df as [| r df IH]; intros i; [reflexivity |].
  cbn [reset_index_from map length seq]. rewrite IH, <- seq_shift, map_map.
  f_equal; [cbn; lia |]. apply map_ext. intros k. lia.
Qed.

Lemma reset_index_from_drop_label (i : Z) (df : list drow) :
  map (set_idx 0) (reset_index_from i df) = map (set_idx 0) df.
Proof.
  revert i. induction df as [| r df IH]; intros i; [reflexivity |].
  cbn [reset_index_from map]. rewrite IH. reflexivity.
Qed.

(** X16.  The processed frame the builder returns is labelled 0, 1, 2,
    ... in row order, and apart from the labels its rows are the rows the
    input has for the vehicles with at least two points: none lost, none
    added, none changed. *)
Theorem builder_processed_frame :
  forall df : list drow,
    match preprocess_data df with
    | Return (traj_data, processed_df, traj_ids) =>
        map drow_idx processed_df
        = map Z.of_nat (seq 0 (length processed_df))
        /\ Permutation
             (map (set_idx 0) processed_df)
             (map (set_idx 0)
                  (filter (fun r : drow => qualifies df (TaxiID r)) df))
    | Raise _ => True
    end.
Proof.
  intros df. rewrite preprocess_data_unfold, extract_traj_data_cases.
  destruct (processed df) as [| r P] eqn:E; [exact I |].
  cbn [bind]. rewrite <- E. unfold processed, reset_index. split.
  - rewrite reset_index_from_labels, reset_index_from_length. reflexivity.
  - rewrite reset_index_from_drop_label.
    apply Permutation_map.
    apply (groupby_apply_perm drow_TaxiID drow_idx sort_values_DateTime
             (keep_two df) sort_values_DateTime_perm).
Qed.

End BuilderTimeOrder.

(** ** Date and hour filters *)

Section DateHourFacts.
Local Open Scope Z_scope.
Variable Row : Type.
Variable DateTime_col : Row -> option Z.

Lemma boolean_mask_filter {X : Type} (p : X -> bool) (l : list X) :
  boolean_mask l (map p l) = filter p l.
Proof.
  induction l as [| x l IH]; [reflexivity |]. cbn [map boolean_mask filter].
  rewrite IH. reflexivity.
Qed.

Lemma dt_hour_range (t : option Z) (h : Z) :
  dt_hour t = Some h -> 0 <= h <= 23.
Proof.
  destruct t as [x |]; [| discriminate]. cbn. intros E. injection E as <-.
  pose proof (Z.mod_pos_bound (x / ns_per_hour) 24). lia.
Qed.

Lemma filter_true {X : Type} (l : list X) : filter (fun _ => true) l = l.
Proof. apply filter_all. reflexivity. Qed.

Lemma filter_data_by_hours_filter (df : list Row) (rg : Z * Z) :
  filter_data_by_hours DateTime_col df rg = filter (hours_mask DateTime_col rg) df.
Proof.
  destruct rg as [s e]. unfold filter_data_by_hours, hours_mask.
  destruct ((s =? 0) && (e =? 23)) eqn:F; [symmetry; apply filter_true |].
  destruct (e =? 23) eqn:E; rewrite boolean_mask_filter; [| reflexivity].
  apply filter_ext. intros r. apply Z.eqb_eq in E. subst e.
  destruct (dt_hour (DateTime_col r)) as [h |] eqn:H; [| reflexivity].
  cbn [int_ge int_le]. apply dt_hour_range in H.
  replace (h <=? 23) with true by (symmetry; apply Z.leb_le; lia).
  rewrite andb_true_r. reflexivity.
Qed.

Lemma filter_data_by_date_filter (df : list Row) (dates : list Z) (n : Z) :
  filter_data_by_date DateTime_col df dates n
  = filter (dates_mask DateTime_col dates n) df.
Proof.
  unfold filter_data_by_date, dates_mask.
  destruct (Z.of_nat (length dates) =? n); [symmetry; apply filter_true |].
  apply boolean_mask_filter.
Qed.

Lemma hours_mask_spec (s e : Z) (r : Row) :
  (s, e) <> (0, 23) ->
  hours_mask DateTime_col (s, e) r = true <-> hour_between s e (DateTime_col r).
Proof.
  intros Hne. unfold hours_mask, hour_between.
  destruct ((s =? 0) && (e =? 23)) eqn:F.
  - apply andb_true_iff in F. rewrite !Z.eqb_eq in F. destruct F. subst.
    contradiction.
  - destruct (DateTime_col r) as [x |]; cbn [dt_hour int_ge int_le].
    + rewrite andb_true_iff, !Z.leb_le. split.
      * intros H. exists x. split; [reflexivity | exact H].
      * intros (y & E & H). injection E as <-. exact H.
    + split; [discriminate | intros (y & E & _); discriminate].
Qed.

(** X17.  For every hour range other than (0, 23) the hour filter
    returns, in the order of the frame, exactly the rows that have a
    timestamp whose hour of the day lies between the two bounds, both
    included; the shortcut taken when the upper bound is 23 selects the same
    rows as the general comparison. *)
Theorem filter_data_by_hours_keeps_hours_in_range :
  forall (df : list Row) (s e : Z),
    (s, e) <> (0, 23) ->
    removes (fun r => ~ hour_between s e (DateTime_col r)) df
            (filter_data_by_hours DateTime_col df (s, e))
    /\ (forall r : Row,
          In r (filter_data_by_hours DateTime_col df (s, e))
          <-> In r df /\ hour_between s e (DateTime_col r)).
Proof.
  intros df s e Hne. rewrite filter_data_by_hours_filter. split.
  - induction df as [| r df IH]; cbn [filter]; [constructor |].
    destruct (hours_mask DateTime_col (s, e) r) eqn:M.
    + apply removes_keep; [| exact IH].
      intros H. apply H. apply (proj1 (hours_mask_spec r Hne)), M.
    + apply removes_drop; [| exact IH].
      intros H. apply (proj2 (hours_mask_spec r Hne)) in H. congruence.
  - intros r. rewrite filter_In, (hours_mask_spec r Hne). reflexivity.
Qed.

(** X18.  Edge behaviour of the hour filter: the range (0, 23) returns
    the frame whole, the rows without timestamp included, while every other
    range drops the rows without timestamp; and a range whose lower bound is
    above its upper bound selects nothing, there is no wrap-around past
    midnight. *)
Theorem filter_data_by_hours_edges :
  forall df : list Row,
    filter_data_by_hours DateTime_col df (0, 23) = df
    /\ (forall s e : Z,
          (s, e) <> (0, 23) ->
          Forall (fun r => DateTime_col r <> None)
                 (filter_data_by_hours DateTime_col df (s, e)))
    /\ (forall s e : Z,
          e < s -> filter_data_by_hours DateTime_col df (s, e) = []).
Proof.
  intros df. split; [reflexivity |]. split.
  - intros s e Hne. apply Forall_forall. intros r Hr.
    rewrite filter_data_by_hours_filter in Hr. apply filter_In in Hr.
    destruct Hr as [_ Hr]. apply (hours_mask_spec r Hne) in Hr.
    destruct Hr as (x & E & _). congruence.
  - intros s e Hlt.
    assert (Hne : (s, e) <> (0, 23)) by (intros E; injection E; lia).
    rewrite filter_data_by_hours_filter.
    destruct (filter (hours_mask DateTime_col (s, e)) df) as [| r l] eqn:E;
      [reflexivity |].
    assert (Hr : In r (filter (hours_mask DateTime_col (s, e)) df))
      by (rewrite E; left; reflexivity).
    apply filter_In in Hr. destruct Hr as [_ Hr].
    apply (hours_mask_spec r Hne) in Hr. destruct Hr as (x & _ & H). lia.
Qed.

Lemma dates_mask_spec (dates : list Z) (n : Z) (r : Row) :
  Z.of_nat (length dates) <> n ->
  dates_mask DateTime_col dates n r = true <-> on_one_of dates (DateTime_col r).
Proof.
  intros Hne. unfold dates_mask, on_one_of.
  replace (Z.of_nat (length dates) =? n) with false
    by (symmetry; apply Z.eqb_neq, Hne).
  destruct (DateTime_col r) as [x |]; cbn [dt_date isin].
  - rewrite existsb_exists. split.
    + intros (d' & Hd & E). apply in_map_iff in Hd.
      destruct Hd as (d & <- & Hd). apply Z.eqb_eq in E.
      exists x, d. auto.
    + intros (y & d & E & Hd & H). injection E as <-.
      exists (Timestamp_date d). split; [apply in_map, Hd |].
      apply Z.eqb_eq, H.
  - split; [discriminate | intros (y & d & E & _); discriminate].
Qed.

(** X19.  The date filter returns the frame whole as soon as the number
    of selected dates equals [len_sad], whichever dates are selected;
    otherwise it returns exactly the rows that have a timestamp falling on
    the day of one of the selected dates. *)
Theorem filter_data_by_date_selects_days :
  forall (df : list Row) (selected_dates : list Z) (len_sad : Z),
    (Z.of_nat (length selected_dates) = len_sad ->
     filter_data_by_date DateTime_col df selected_dates len_sad = df)
    /\ (Z.of_nat (length selected_dates) <> len_sad ->
        removes (fun r => ~ on_one_of selected_dates (DateTime_col r)) df
                (filter_data_by_date DateTime_col df selected_dates len_sad)
        /\ forall r : Row,
             In r (filter_data_by_date DateTime_col df selected_dates len_sad)
             <-> In r df /\ on_one_of selected_dates (DateTime_col r)).
Proof.
  intros df dates n. split.
  - intros E. unfold filter_data_by_date.
    apply Z.eqb_eq in E. rewrite E. reflexivity.
  - intros Hne. rewrite filter_data_by_date_filter. split.
    + induction df as [| r df IH]; cbn [filter]; [constructor |].
      destruct (dates_mask DateTime_col dates n r) eqn:M.
      * apply removes_keep; [| exact IH].
        intros H. apply H. apply (proj1 (@dates_mask_spec dates n r Hne)), M.
      * apply removes_drop; [| exact IH].
        intros H. apply (proj2 (@dates_mask_spec dates n r Hne)) in H. congruence.
    + intros r. rewrite filter_In, (@dates_mask_spec dates n r Hne). reflexivity.
Qed.

Lemma filter_idem {X : Type} (p : X -> bool) (l : list X) :
  filter p (filter p l) = filter p l.
Proof.
  apply filter_all. intros x Hx. apply filter_In in Hx. tauto.
Qed.

(** X20.  The date filter and the hour filter can be applied in either
    order with the same result, and applying one of them twice with the same
    arguments is applying it once. *)
Theorem date_and_hour_filters_commute :
  forall (df : list Row) (selected_dates : list Z) (len_sad : Z) (rg : Z * Z),
    filter_data_by_date DateTime_col
      (filter_data_by_hours DateTime_col df rg) selected_dates len_sad
    = filter_data_by_hours DateTime_col
        (filter_data_by_date DateTime_col df selected_dates len_sad) rg
    /\ filter_data_by_hours DateTime_col
         (filter_data_by_hours DateTime_col df rg) rg
       = filter_data_by_hours DateTime_col df rg
    /\ filter_data_by_date DateTime_col
         (filter_data_by_date DateTime_col df selected_dates len_sad)
         selected_dates len_sad
       = filter_data_by_date DateTime_col df selected_dates len_sad.
Proof.
  intros df dates n rg.
  rewrite !filter_data_by_hours_filter, !filter_data_by_date_filter.
  split; [apply filter_comm |]. split; apply filter_idem.
Qed.

End DateHourFacts.

Lemma filter_data_by_hours_keeps_hours_in_range_witness :
  (9, 17)%Z <> (0, 23)%Z
  /\ filter_data_by_hours DateTime hour_frame (9, 17)%Z
     = [mkPoint 1 1 (Some 45000000000000%Z) None None]
  /\ filter_data_by_hours DateTime hour_frame (23, 23)%Z
     = [mkPoint 3 1 (Some (-2700000000000)%Z) None None]
  /\ removes (fun r => ~ hour_between 9%Z 17%Z (DateTime r)) hour_frame
             (filter_data_by_hours DateTime hour_frame (9, 17)%Z)
  /\ (forall r : point,
        In r (filter_data_by_hours DateTime hour_frame (9, 17)%Z)
        <-> In r hour_frame /\ hour_between 9%Z 17%Z (DateTime r)).
Proof.
  assert (H : (9, 17)%Z <> (0, 23)%Z) by discriminate.
  split; [exact H |]. split; [reflexivity |]. split; [reflexivity |].
  exact (@filter_data_by_hours_keeps_hours_in_range
           point DateTime hour_frame 9%Z 17%Z H).
Defined.

(** ** The pipeline end to end *)

Section PipelineMore.
Local Open Scope Z_scope.

Lemma StronglySorted_impl_in {X : Type} (P Q : X -> X -> Prop) (l : list X) :
  (forall x y, In x l -> In y l -> P x y -> Q x y) ->
  StronglySorted P l -> StronglySorted Q l.
Proof.
  intros H Hs. induction Hs as [| x l Hl IH Hx]; constructor.
  - apply IH. intros a b Ha Hb. apply H; right; assumption.
  - rewrite Forall_forall in Hx |- *. intros y Hy.
    apply H; [left; reflexivity | right; exact Hy | apply Hx, Hy].
Qed.

Lemma StronglySorted_map_inv {X Y : Type} (f : X -> Y) (R : Y -> Y -> Prop)
      (l : list X) :
  StronglySorted R (map f l) <-> StronglySorted (fun a b => R (f a) (f b)) l.
Proof.
  induction l as [| x l IH]; cbn [map]; [split; constructor |].
  split; intros H; apply StronglySorted_inv in H; destruct H as [H Hx];
    constructor; try (apply IH; exact H).
  - rewrite Forall_map in Hx. exact Hx.
  - rewrite Forall_map. exact Hx.
Qed.

Lemma filtered_frame_sorted (df : list point) (T : R) :
  StronglySorted (fun a b : drow => vehicle_time_le a b)
    (filter_invalid_moves (features_from [] (sort key_leb df)) T).
Proof.
  rewrite filter_invalid_moves_filter. apply StronglySorted_filter.
  apply (StronglySorted_map_inv pt vehicle_time_le).
  rewrite features_from_pt. apply sort_values_sorted.
Qed.

Lemma sorted_frame_group_time (F : list drow) (p : drow -> bool) (v : Z) :
  StronglySorted (fun a b : drow => vehicle_time_le a b) F ->
  StronglySorted
    (fun r s : drow => DateTime_leb (DateTime r) (DateTime s) = true)
    (get_group drow_TaxiID v (filter p F)).
Proof.
  intros H. unfold get_group.
  apply StronglySorted_impl_in
    with (P := fun a b : drow => vehicle_time_le a b).
  - intros x y Hx Hy [Hlt | [_ Ht]].
    + apply filter_In in Hx. apply filter_In in Hy.
      destruct Hx as [_ Hx]. destruct Hy as [_ Hy].
      apply Z.eqb_eq in Hx. apply Z.eqb_eq in Hy.
      unfold drow_TaxiID in Hx, Hy. lia.
    + apply DateTime_leb_spec, Ht.
  - apply StronglySorted_filter, StronglySorted_filter, H.
Qed.

Lemma processed_of_sorted_frame (F : list drow) :
  StronglySorted (fun a b : drow => vehicle_time_le a b) F ->
  processed F = reset_index (keep_two F).
Proof.
  intros H. unfold processed. f_equal. apply groupby_apply_fixed.
  intros v. apply sort_sorted_id, StronglySorted_Sorted.
  unfold keep_two, groupby_filter. apply sorted_frame_group_time, H.
Qed.

Lemma trajectory_of_keep_two (F : list drow) (v : Z) :
  qualifies F v = true ->
  trajectory_of (reset_index (keep_two F)) v = trajectory_of F v.
Proof.
  intros Hq. unfold reset_index. rewrite reset_index_from_trajectory.
  unfold trajectory_of, keep_two.
  rewrite (get_group_groupby_filter drow_TaxiID
             (fun x => (2 <=? length x)%nat) v F Hq).
  reflexivity.
Qed.

(** X21.  The pipeline end to end, for every collection of points in
    which no two points have the same vehicle and the same timestamp, and
    every threshold: when the builder returns, the IDs are the vehicles that
    keep at least two points after the anomaly filter, in ascending order,
    and the trajectory of each is the list of the coordinates of the points
    the filter has kept for it, in ascending order of timestamp. *)
Theorem pipeline_trajectories :
  forall (df : list point) (T : R),
    NoDup (map vehicle_time df) ->
    exists feats : list drow,
      calculate_trajectory_features df = Return feats
      /\ match preprocess_data (filter_invalid_moves feats T) with
         | Return (traj_data, processed_df, traj_ids) =>
             traj_ids = first_appearance_order (filter_invalid_moves feats T)
             /\ StronglySorted Z.lt traj_ids
             /\ traj_data
                = map (trajectory_of (filter_invalid_moves feats T)) traj_ids
             /\ (forall v : Z,
                   StronglySorted time_le
                     (map (fun r : drow => DateTime r)
                          (get_group drow_TaxiID v
                             (filter_invalid_moves feats T))))
         | Raise e =>
             e = AttributeError
             /\ keep_two (filter_invalid_moves feats T) = []
         end.
Proof.
  intros df T _. exists (features_from [] (sort key_leb df)).
  split; [apply calculate_returns |].
  set (F := filter_invalid_moves (features_from [] (sort key_leb df)) T).
  pose proof (filtered_frame_sorted df T) as Hs. fold F in Hs.
  assert (Hord : ordered_by_vehicle F).
  { destruct (pipeline_frame_ordered df T) as (feats & E & Ho).
    rewrite calculate_returns in E. injection E as <-. exact Ho. }
  pose proof (preprocess_data_ordered Hord) as H.
  rewrite preprocess_data_unfold, extract_traj_data_cases in *.
  rewrite (processed_of_sorted_frame Hs) in *.
  destruct (reset_index (keep_two F)) as [| r P] eqn:E; [exact H |].
  cbn [bind] in *. rewrite <- E in *.
  destruct H as [(Hids & Htd & _) _].
  split; [exact Hids |]. split; [| split].
  - rewrite Hids. unfold first_appearance_order.
    apply sorted_NoDup_lt; [| apply NoDup_filter, NoDup_unique].
    apply StronglySorted_filter, unique_sorted, ordered_by_vehicle_strongly, Hord.
  - rewrite Htd at 1. rewrite Hids. apply map_ext_in. intros v Hv.
    apply trajectory_of_keep_two.
    unfold first_appearance_order in Hv. apply filter_In in Hv. tauto.
  - intros v.
    pose proof (@sorted_frame_group_time F (fun _ => true) v Hs) as Hg.
    rewrite filter_true in Hg.
    apply (StronglySorted_map_inv (fun r : drow => DateTime r) time_le).
    eapply StronglySorted_impl; [| exact Hg].
    intros x y. apply DateTime_leb_spec.
Qed.

Lemma pipeline_trajectories_witness :
  NoDup (map vehicle_time dfA)
  /\ exists feats : list drow,
       calculate_trajectory_features dfA = Return feats
       /\ match preprocess_data (filter_invalid_moves feats 150) with
          | Return (traj_data, processed_df, traj_ids) =>
              traj_ids = first_appearance_order (filter_invalid_moves feats 150)
              /\ StronglySorted Z.lt traj_ids
              /\ traj_data
                 = map (trajectory_of (filter_invalid_moves feats 150)) traj_ids
              /\ (forall v : Z,
                    StronglySorted time_le
                      (map (fun r : drow => DateTime r)
                           (get_group drow_TaxiID v
                              (filter_invalid_moves feats 150))))
          | Raise e =>
              e = AttributeError
              /\ keep_two (filter_invalid_moves feats 150) = []
          end.
Proof.
  assert (Hn : NoDup (map vehicle_time dfA)).
  { cbn. repeat constructor; cbn; intuition discriminate. }
  split; [exact Hn |].
  exact (@pipeline_trajectories dfA 150%R Hn).
Defined.

End PipelineMore.
